(** * Risk-interaction network engine: a shallow embedding

    The development embeds the core of [src/risk_analysis/interaction_analysis.py]
    and the routines it shares with [src/risk_analysis/systemic_risk_analysis.py]:
    interaction scoring, graph construction, cascade simulation, feedback loops
    and resilience metrics.

    Conventions.
    - A Python [float] is a primitive binary64 [float]; Python's [int] literal [0]
      that seeds [sum] and the default [[0]] of [dict.get] is embedded as [+0.0],
      which it equals under [==] and under float arithmetic.
    - A Python [int] identifier is a [Z].
    - A Python [dict] is an insertion-ordered association list ([Dict.t]).
    - A raising computation returns [inl e] in the [Exc] monad.
    - A text is an ASCII [string]: a Python [str] all of whose characters are
      ASCII, one [ascii] for each. Where a statement would fail on a [str] with
      other characters, it carries [ascii_text] as a hypothesis. *)

From Stdlib Require Import String Ascii ZArith Bool Floats Lia List DecimalString.
Import ListNotations.

Set Warnings "-inexact-float".

(** ** Exceptions *)

Inductive exception : Type :=
| StopIteration
| IndexError
| KeyError
| NetworkXError (msg : string)
| NetworkXPointlessConcept (msg : string)
| ExternalError (msg : string).

Definition Exc (A : Type) : Type := (exception + A)%type.

(** [str(n)] of an [int], as an f-string writes it. *)
Definition str_of_int (n : Z) : string := NilZero.string_of_int (Z.to_int n).

Definition ret {A} (a : A) : Exc A := inr a.
Definition raise {A} (e : exception) : Exc A := inl e.
Definition bind {A B} (c : Exc A) (k : A -> Exc B) : Exc B :=
  match c with
  | inl e => inl e
  | inr a => k a
  end.

Notation "x <- c ;; k" := (bind c (fun x => k))
  (at level 61, c at next level, right associativity).
Notation "' p <- c ;; k" := (bind c (fun p => k))
  (at level 61, p pattern, c at next level, right associativity).

(** [for x in xs: acc = body(acc, x)], where the body may raise. *)
Definition foldM {A B} (body : B -> A -> Exc B) (xs : list A) (init : B) : Exc B :=
  fold_left (fun acc x => b <- acc ;; body b x) xs (ret init).

(** ** Insertion-ordered dictionaries with integer keys *)

Module Dict.

Definition t (V : Type) : Type := list (Z * V).

Fixpoint get {V} (d : t V) (k : Z) : option V :=
  match d with
  | [] => None
  | (k', v) :: d' => if (k' =? k)%Z then Some v else get d' k
  end.

Definition contains {V} (d : t V) (k : Z) : bool :=
  match get d k with
  | Some _ => true
  | None => false
  end.

(** [d[k] = v]: an existing key keeps its position, a new key goes last. *)
Fixpoint set {V} (d : t V) (k : Z) (v : V) : t V :=
  match d with
  | [] => [(k, v)]
  | (k', v') :: d' =>
      if (k' =? k)%Z then (k, v) :: d' else (k', v') :: set d' k v
  end.

Definition keys {V} (d : t V) : list Z := map fst d.
Definition values {V} (d : t V) : list V := map snd d.

(** [d[k]] *)
Definition item {V} (d : t V) (k : Z) : Exc V :=
  match get d k with
  | Some v => ret v
  | None => raise KeyError
  end.

(** [d.get(k, default)] *)
Definition get_default {V} (d : t V) (k : Z) (default : V) : V :=
  match get d k with
  | Some v => v
  | None => default
  end.

End Dict.

(** ** Python list primitives used by the source *)

(** [xs[-1]] *)
Definition last_item {A} (xs : list A) : Exc A :=
  match rev xs with
  | [] => raise IndexError
  | x :: _ => ret x
  end.

(** [next(iter(xs))] *)
Definition next_iter {A} (xs : list A) : Exc A :=
  match xs with
  | [] => raise StopIteration
  | x :: _ => ret x
  end.

(** ** src.models *)

Module Models.

(** Modelled from the spec: the [Risk] record of [src/models.py], which is not
    among the source files. The fields are those the spec's data model lists
    and the tests' constructor calls supply. *)
Record Risk : Type := {
  id : Z;
  description : string;
  category : string;
  likelihood : float;
  impact : float;
  subcategory : string;
  tertiary_category : string;
  time_horizon : string;
  industry_specific : bool;
  sasb_category : string
}.

(** Modelled from the spec: the [RiskInteraction] record of [src/models.py],
    which is not among the source files. The fifth field is the optional
    rationale text. *)
Record RiskInteraction : Type := {
  risk1_id : Z;
  risk2_id : Z;
  interaction_score : float;
  interaction_type : string;
  analysis : option string
}.

End Models.

(** ** networkx.Graph

    The undirected graph of the networkx library, as far as the source uses
    it: a node dictionary whose entries hold the node's attributes and its
    adjacency dictionary. Both directions of an edge hold the same data, and
    every edge carries the two attributes [build_risk_network] gives it. *)

Module Nx.

Record EdgeData : Type := { weight : float; type : string }.

Record NodeEntry : Type := {
  attr : option Models.Risk;
  nbrs : Dict.t EdgeData
}.

Definition Graph : Type := Dict.t NodeEntry.

Definition empty : Graph := [].

(** [G.add_node(n, **risk.__dict__)]: a new node gets an empty adjacency,
    an existing node has its attributes updated. *)
Definition add_node (G : Graph) (n : Z) (r : Models.Risk) : Graph :=
  match Dict.get G n with
  | None => Dict.set G n {| attr := Some r; nbrs := [] |}
  | Some e => Dict.set G n {| attr := Some r; nbrs := nbrs e |}
  end.

(** The first half of [add_edge]: an endpoint that is not yet a node is added
    with no attributes. *)
Definition touch (G : Graph) (n : Z) : Graph :=
  match Dict.get G n with
  | None => Dict.set G n {| attr := None; nbrs := [] |}
  | Some _ => G
  end.

(** [self._adj[u][v] = datadict] *)
Definition set_nbr (G : Graph) (u v : Z) (d : EdgeData) : Graph :=
  match Dict.get G u with
  | None => G
  | Some e => Dict.set G u {| attr := attr e; nbrs := Dict.set (nbrs e) v d |}
  end.

(** [G.add_edge(u, v, weight=w, type=t)]: missing endpoints are added, and
    the data of an existing edge is updated with the new attributes. *)
Definition add_edge (G : Graph) (u v : Z) (d : EdgeData) : Graph :=
  set_nbr (set_nbr (touch (touch G u) v) u v d) v u d.

(** [G.nodes()] *)
Definition nodes (G : Graph) : list Z := Dict.keys G.

(** [len(G.nodes)] *)
Definition number_of_nodes (G : Graph) : nat := length G.

(** [G.neighbors(n)]; the error of an unknown node names the node. *)
Definition neighbors (G : Graph) (n : Z) : Exc (list Z) :=
  match Dict.get G n with
  | None =>
      raise (NetworkXError ("The node " ++ str_of_int n ++ " is not in the graph."))
  | Some e => ret (Dict.keys (nbrs e))
  end.

(** [G[u][v]] *)
Definition edge (G : Graph) (u v : Z) : Exc EdgeData :=
  e <- Dict.item G u ;; Dict.item (nbrs e) v.

(** [G.has_edge(u, v)] *)
Definition has_edge (G : Graph) (u v : Z) : bool :=
  match Dict.get G u with
  | None => false
  | Some e => Dict.contains (nbrs e) v
  end.

(** [G[u].get(v)]: the data of the edge from [u] to [v], when there is one. *)
Definition lookup_edge (G : Graph) (u v : Z) : option EdgeData :=
  match Dict.get G u with
  | None => None
  | Some e => Dict.get (nbrs e) v
  end.

(** The weight of the edge from [u] to [v], when there is one. *)
Definition edge_weight (G : Graph) (u v : Z) : option float :=
  option_map weight (lookup_edge G u v).

(** What a node entry adds to the sum of [len(G.edges)]. *)
Definition ends_at (n : Z) (e : NodeEntry) : nat :=
  length (nbrs e) + (if Dict.contains (nbrs e) n then 1 else 0).

(** [len(G.edges)]: [sum(len(nbrs) + (n in nbrs) for n, nbrs in adj) // 2] *)
Definition edge_ends (G : Graph) : nat :=
  fold_right (fun '(n, e) acc => ends_at n e + acc) 0 G.

Definition number_of_edges (G : Graph) : nat := edge_ends G / 2.

(** One level of [_plain_bfs]: every unseen neighbour of a node of this
    level is marked and queued for the next level. *)
Definition bfs_level (G : Graph) (seen thislevel : list Z) : list Z * list Z :=
  fold_left
    (fun '(seen, nextlevel) v =>
       fold_left
         (fun '(seen, nextlevel) w =>
            if existsb (Z.eqb w) seen then (seen, nextlevel)
            else (seen ++ [w], nextlevel ++ [w]))
         (Dict.keys (nbrs (Dict.get_default G v {| attr := None; nbrs := [] |})))
         (seen, nextlevel))
    thislevel (seen, []).

(** [_plain_bfs(G, source)]; a graph of [n] nodes has at most [n] levels. *)
Fixpoint plain_bfs (levels : nat) (G : Graph) (seen thislevel : list Z) : list Z :=
  match levels with
  | O => seen
  | S levels' =>
      match thislevel with
      | [] => seen
      | _ =>
          let '(seen', nextlevel) := bfs_level G seen thislevel in
          plain_bfs levels' G seen' nextlevel
      end
  end.

(** [nx.is_connected(G)] *)
Definition is_connected (G : Graph) : Exc bool :=
  match nodes G with
  | [] => raise (NetworkXPointlessConcept
                   "Connectivity is undefined for the null graph.")
  | source :: _ =>
      ret (length (plain_bfs (length G) G [source] [source]) =? length G)
  end.

End Nx.

(** ** The regular expression [[-+]?\d*\.\d+|\d+] and [float()] *)

Module Re.

(** [\d] on an ASCII character. The pattern is a [str] pattern, which also
    matches the decimal digits of other scripts; an ASCII text holds none. *)
Definition is_digit (c : ascii) : bool :=
  (48 <=? nat_of_ascii c) && (nat_of_ascii c <=? 57).

Definition is_sign (c : ascii) : bool :=
  Ascii.eqb c "-" || Ascii.eqb c "+".

(** The longest run of digits at the head of [s], and what follows it. *)
Fixpoint span_digits (s : list ascii) : list ascii * list ascii :=
  match s with
  | c :: s' =>
      if is_digit c
      then let '(ds, rest) := span_digits s' in (c :: ds, rest)
      else ([], s)
  | [] => ([], [])
  end.

(** The first alternative at the head of [s]: [[-+]?\d*\.\d+]. Giving back
    the sign or digits never helps: a shorter [\d*] is followed by a digit
    and a dropped sign by the sign, neither of which is the dot. *)
Definition match_float (s : list ascii) : option (list ascii) :=
  let '(sign, s1) :=
    match s with
    | c :: s' => if is_sign c then ([c], s') else ([], s)
    | [] => ([], s)
    end in
  let '(int_part, s2) := span_digits s1 in
  match s2 with
  | c :: s3 =>
      if Ascii.eqb c "."
      then match fst (span_digits s3) with
           | [] => None
           | frac => Some (sign ++ int_part ++ c :: frac)
           end
      else None
  | [] => None
  end.

(** The second alternative at the head of [s]: [\d+]. *)
Definition match_int (s : list ascii) : option (list ascii) :=
  match fst (span_digits s) with
  | [] => None
  | ds => Some ds
  end.

Definition match_here (s : list ascii) : option (list ascii) :=
  match match_float s with
  | Some tok => Some tok
  | None => match_int s
  end.

(** The scan of [re.findall]: leftmost match first, then on from its end;
    [skip] counts the characters of the last match still to pass. *)
Fixpoint scan (skip : nat) (s : list ascii) : list (list ascii) :=
  match s with
  | [] => []
  | _ :: s' =>
      match skip with
      | S skip' => scan skip' s'
      | O =>
          match match_here s with
          | Some tok => tok :: scan (length tok - 1) s'
          | None => scan 0 s'
          end
      end
  end.

(** [re.findall(r"[-+]?\d*\.\d+|\d+", text)] *)
Definition findall (text : string) : list (list ascii) :=
  scan 0 (list_ascii_of_string text).

Definition digit_value (c : ascii) : Z := Z.of_nat (nat_of_ascii c - 48).

Definition digits_value (ds : list ascii) : Z :=
  fold_left (fun n c => 10 * n + digit_value c)%Z ds 0%Z.

(** The binary64 nearest to [m / 10^k] (ties to even), signed by [neg]: the
    quotient is taken with enough extra bits that the remainder only
    matters as a sticky bit. *)
Definition decimal_to_float (neg : bool) (m : Z) (k : nat) : float :=
  match m with
  | Z0 => if neg then neg_zero else zero
  | _ =>
      let d := (10 ^ Z.of_nat k)%Z in
      let s := (Z.log2 d + 60)%Z in
      let q := ((m * 2 ^ s) / d)%Z in
      let r := ((m * 2 ^ s) mod d)%Z in
      SF2Prim
        (binary_round_aux prec emax neg q (- s)
           (if (r =? 0)%Z then loc_Exact else loc_Inexact Lt))
  end.

(** [float(tok)] for a token of the pattern: sign, digits, optional
    fraction. *)
Definition float_of_token (tok : list ascii) : float :=
  let '(neg, body) :=
    match tok with
    | c :: body' =>
        if is_sign c then (Ascii.eqb c "-", body') else (false, tok)
    | [] => (false, tok)
    end in
  let '(int_part, rest) := span_digits body in
  let frac := match rest with
              | _ :: frac' => fst (span_digits frac')
              | [] => []
              end in
  decimal_to_float neg (digits_value (int_part ++ frac)) (length frac).

End Re.

(** A cascade state: each tracked node's series of activation values. *)
Definition Progression : Type := Dict.t (list float).

(** The four metrics of the resilience dictionary, in the order the source
    computes them. *)
Record ResilienceMetrics : Type := {
  average_clustering : float;
  average_shortest_path_length : float;
  graph_density : float;
  assortativity : float
}.

(** [nx.average_shortest_path_length(G, weight='weight')]: the guards networkx
    runs before the computation; [mean_distance] is the computation itself. *)
Definition nx_average_shortest_path_length
    (mean_distance : Nx.Graph -> Exc float) (G : Nx.Graph) : Exc float :=
  match length G with
  | 0 => raise (NetworkXPointlessConcept
                  "the null graph has no paths, thus there is no average shortest path length")
  | 1 => ret 0%float
  | _ =>
      connected <- Nx.is_connected G ;;
      if negb connected then raise (NetworkXError "Graph is not connected.")
      else mean_distance G
  end.

(** ** Dictionaries keyed by a pair of integers *)

Module PairDict.

Definition t (V : Type) : Type := list ((Z * Z) * V).

Definition key_eqb (p q : Z * Z) : bool :=
  (fst p =? fst q)%Z && (snd p =? snd q)%Z.

Fixpoint get {V} (d : t V) (k : Z * Z) : option V :=
  match d with
  | [] => None
  | (k', v) :: d' => if key_eqb k' k then Some v else get d' k
  end.

(** [d[k] = v]: an existing key keeps its position, a new key goes last. *)
Fixpoint set {V} (d : t V) (k : Z * Z) (v : V) : t V :=
  match d with
  | [] => [(k, v)]
  | (k', v') :: d' =>
      if key_eqb k' k then (k, v) :: d' else (k', v') :: set d' k v
  end.

Definition keys {V} (d : t V) : list (Z * Z) := map fst d.

End PairDict.

(** ** src/risk_analysis/interaction_analysis.py *)

Module InteractionAnalysis.

Import Models.

Definition extract_interaction_score (analysis : string) : float :=
  let numbers := Re.findall analysis in
  match rev numbers with
  | last :: _ => Re.float_of_token last
  | [] => 0.5%float
  end.

Definition determine_interaction_type (score : float) : string :=
  if (score <? 0.3)%float then "Weak"
  else if (score <? 0.7)%float then "Moderate"
  else "Strong".

Section Scoring.

(** [INTERACTION_ANALYSIS_PROMPT.format(...)] of [src/prompts.py], which is
    not among the source files. *)
Variable INTERACTION_ANALYSIS_PROMPT :
  string -> string -> string -> string -> string -> string -> string.

(** The chat-completion service: from the prompt and the state of the
    service to the text of the first choice, or a failure, and the next
    state. *)
Variable Service : Type.
Variable ChatCompletion_create : string -> Service -> Exc string * Service.

(** The body of the inner loop: one pair of risks. *)
Definition score_pair (risk1 risk2 : Risk) (sv : Service)
  : Exc RiskInteraction * Service :=
  let prompt :=
    INTERACTION_ANALYSIS_PROMPT
      (description risk1) (category risk1) (subcategory risk1)
      (description risk2) (category risk2) (subcategory risk2) in
  match ChatCompletion_create prompt sv with
  | (inl e, sv') => (inl e, sv')
  | (inr analysis, sv') =>
      let interaction_score := extract_interaction_score analysis in
      let interaction_type := determine_interaction_type interaction_score in
      (inr {| risk1_id := id risk1;
              risk2_id := id risk2;
              interaction_score := interaction_score;
              interaction_type := interaction_type;
              analysis := Some analysis |}, sv')
  end.

(** [for j, risk2 in enumerate(risks[i+1:], start=i+1)] *)
Fixpoint inner_loop (risk1 : Risk) (rest : list Risk)
    (interactions : list RiskInteraction) (sv : Service)
  : Exc (list RiskInteraction) * Service :=
  match rest with
  | [] => (inr interactions, sv)
  | risk2 :: rest' =>
      match score_pair risk1 risk2 sv with
      | (inl e, sv') => (inl e, sv')
      | (inr interaction, sv') =>
          inner_loop risk1 rest' (interactions ++ [interaction]) sv'
      end
  end.

(** [for i, risk1 in enumerate(risks)]; the list that remains after
    [risk1] is [risks[i+1:]]. *)
Fixpoint outer_loop (risks : list Risk)
    (interactions : list RiskInteraction) (sv : Service)
  : Exc (list RiskInteraction) * Service :=
  match risks with
  | [] => (inr interactions, sv)
  | risk1 :: rest =>
      match inner_loop risk1 rest interactions sv with
      | (inl e, sv') => (inl e, sv')
      | (inr interactions', sv') => outer_loop rest interactions' sv'
      end
  end.

Definition analyze_risk_interactions (risks : list Risk) (sv : Service)
  : Exc (list RiskInteraction) * Service :=
  outer_loop risks [] sv.

End Scoring.

Definition build_risk_network
    (risks : list Risk) (interactions : list RiskInteraction) : Nx.Graph :=
  let G := fold_left (fun G risk => Nx.add_node G (id risk) risk) risks Nx.empty in
  fold_left
    (fun G interaction =>
       Nx.add_edge G (risk1_id interaction) (risk2_id interaction)
         {| Nx.weight := interaction_score interaction;
            Nx.type := interaction_type interaction |})
    interactions G.

(** [sum(cascade_progression.get(neighbor, [0])[-1] * G[node][neighbor]['weight']
         for neighbor in G.neighbors(node))], the terms added from left to
    right; an interpreter whose [sum] compensates the rounding of each
    addition may differ in the last bits of the total. *)
Definition neighbor_influence
    (G : Nx.Graph) (cascade_progression : Progression) (node : Z) : Exc float :=
  neighbors <- Nx.neighbors G node ;;
  foldM
    (fun total neighbor =>
       activation <- last_item (Dict.get_default cascade_progression neighbor [0%float]) ;;
       data <- Nx.edge G node neighbor ;;
       ret (total + activation * Nx.weight data)%float)
    neighbors 0%float.

(** The first loop of a step: the nodes that cross the threshold. *)
Definition new_activations
    (G : Nx.Graph) (cascade_progression : Progression) (threshold : float)
  : Exc (Dict.t float) :=
  foldM
    (fun new_activations node =>
       if negb (Dict.contains cascade_progression node)
       then
         influence <- neighbor_influence G cascade_progression node ;;
         if (threshold <? influence)%float
         then ret (Dict.set new_activations node influence)
         else ret new_activations
       else ret new_activations)
    (Nx.nodes G) [].

(** The second loop of a step: each new node enters with zeros up to the
    length of the first series, less one, and then its activation. *)
Definition backfill
    (cascade_progression : Progression) (new_activations : Dict.t float)
  : Exc Progression :=
  foldM
    (fun cascade_progression '(node, activation) =>
       first <- next_iter (Dict.values cascade_progression) ;;
       ret (Dict.set cascade_progression node
              (repeat 0%float (length first - 1) ++ [activation])))
    new_activations cascade_progression.

(** The third loop of a step: every series repeats its last value. *)
Definition extend (cascade_progression : Progression) : Exc Progression :=
  foldM
    (fun done '(node, progression) =>
       last <- last_item progression ;;
       ret (done ++ [(node, progression ++ [last])]))
    cascade_progression [].

(** One pass of the loop body; [None] is the [break]. *)
Definition cascade_step
    (G : Nx.Graph) (threshold : float) (cascade_progression : Progression)
  : Exc (option Progression) :=
  new <- new_activations G cascade_progression threshold ;;
  match new with
  | [] => ret None
  | _ =>
      filled <- backfill cascade_progression new ;;
      extended <- extend filled ;;
      ret (Some extended)
  end.

(** [for _ in range(max_steps)] *)
Fixpoint cascade_loop
    (G : Nx.Graph) (threshold : float) (steps : nat)
    (cascade_progression : Progression) : Exc Progression :=
  match steps with
  | O => ret cascade_progression
  | S steps' =>
      next <- cascade_step G threshold cascade_progression ;;
      match next with
      | None => ret cascade_progression
      | Some cascade_progression' =>
          cascade_loop G threshold steps' cascade_progression'
      end
  end.

(** [{risk: [1.0] for risk in initial_risks}] *)
Definition initial_progression (initial_risks : list Z) : Progression :=
  fold_left (fun d risk => Dict.set d risk [1%float]) initial_risks [].

Definition analyze_risk_cascades
    (G : Nx.Graph) (initial_risks : list Z) (threshold : float) (max_steps : Z)
  : Exc Progression :=
  cascade_loop G threshold (Z.to_nat max_steps) (initial_progression initial_risks).

Section Library.

(** [nx.simple_cycles], of the networkx library. *)
Variable simple_cycles : Nx.Graph -> Exc (list (list Z)).

Definition identify_risk_feedback_loops (G : Nx.Graph) : Exc (list (list Z)) :=
  feedback_loops <- simple_cycles G ;;
  ret (filter (fun loop => 2 <? length loop) feedback_loops).

(** [nx.average_clustering], [nx.density],
    [nx.degree_assortativity_coefficient] and the mean of the weighted
    distances that [nx.average_shortest_path_length] computes behind its
    guards. *)
Variable nx_average_clustering : Nx.Graph -> Exc float.
Variable nx_mean_distance : Nx.Graph -> Exc float.
Variable nx_density : Nx.Graph -> Exc float.
Variable nx_degree_assortativity_coefficient : Nx.Graph -> Exc float.

Definition analyze_network_resilience (G : Nx.Graph) : Exc ResilienceMetrics :=
  clustering <- nx_average_clustering G ;;
  path_length <- nx_average_shortest_path_length nx_mean_distance G ;;
  density <- nx_density G ;;
  assort <- nx_degree_assortativity_coefficient G ;;
  ret {| average_clustering := clustering;
         average_shortest_path_length := path_length;
         graph_density := density;
         assortativity := assort |}.

End Library.

Section Correlations.

(** [scipy.stats.pearsonr]: the coefficient and the p-value, or the error
    the library raises. *)
Variable pearsonr : list float -> list float -> Exc (float * float).

(** The body of the inner loop: one pair of ids. *)
Definition correlate_pair
    (simulation_results : Dict.t (list float))
    (correlations : PairDict.t float) (risk1_id risk2_id : Z)
  : Exc (PairDict.t float) :=
  x <- Dict.item simulation_results risk1_id ;;
  y <- Dict.item simulation_results risk2_id ;;
  result <- pearsonr x y ;;
  ret (PairDict.set correlations (risk1_id, risk2_id) (fst result)).

(** [for i, risk1_id in enumerate(risk_ids): for risk2_id in risk_ids[i+1:]] *)
Fixpoint correlate_all
    (simulation_results : Dict.t (list float))
    (risk_ids : list Z) (correlations : PairDict.t float)
  : Exc (PairDict.t float) :=
  match risk_ids with
  | [] => ret correlations
  | risk1_id :: rest =>
      correlations' <-
        foldM (fun correlations risk2_id =>
                 correlate_pair simulation_results correlations risk1_id risk2_id)
          rest correlations ;;
      correlate_all simulation_results rest correlations'
  end.

(** [simulation_results] is indexed by risk id, as the body and the test
    do. *)
Definition calculate_risk_correlations
    (risks : list Risk) (simulation_results : Dict.t (list float))
  : Exc (PairDict.t float) :=
  let risk_ids := map id risks in
  correlate_all simulation_results risk_ids [].

End Correlations.

End InteractionAnalysis.

(** ** Python string primitives used by the source *)

Module Str.

Definition lower_char (c : ascii) : ascii :=
  if (65 <=? nat_of_ascii c) && (nat_of_ascii c <=? 90)
  then ascii_of_nat (nat_of_ascii c + 32)
  else c.

(** [s.lower()] of an ASCII text *)
Fixpoint lower (s : string) : string :=
  match s with
  | EmptyString => EmptyString
  | String c s' => String (lower_char c) (lower s')
  end.

(** [needle in haystack] *)
Fixpoint contains (needle haystack : string) : bool :=
  String.prefix needle haystack
  || match haystack with
     | EmptyString => false
     | String _ rest => contains needle rest
     end.

(** The ASCII characters [str.strip] removes. *)
Definition is_space (c : ascii) : bool :=
  let n := nat_of_ascii c in
  ((9 <=? n) && (n <=? 13)) || ((28 <=? n) && (n <=? 32)).

Fixpoint lstrip_chars (s : list ascii) : list ascii :=
  match s with
  | c :: s' => if is_space c then lstrip_chars s' else s
  | [] => []
  end.

(** [s.strip()] *)
Definition strip (s : string) : string :=
  string_of_list_ascii
    (rev (lstrip_chars (rev (lstrip_chars (list_ascii_of_string s))))).

(** [s.replace(' ', '_')] *)
Fixpoint underscore (s : string) : string :=
  match s with
  | EmptyString => EmptyString
  | String c s' => String (if Ascii.eqb c " " then "_"%char else c) (underscore s')
  end.

(** The paragraphs between blank lines; [current] holds the characters of
    the paragraph being read, newest first. *)
Fixpoint paragraphs (s : list ascii) (current : list ascii) : list string :=
  match s with
  | [] => [string_of_list_ascii (rev current)]
  | c :: s' =>
      match s' with
      | c' :: s'' =>
          if Ascii.eqb c "010" && Ascii.eqb c' "010"
          then string_of_list_ascii (rev current) :: paragraphs s'' []
          else paragraphs s' (c :: current)
      | [] => paragraphs s' (c :: current)
      end
  end.

(** [s.split('\n\n')] *)
Definition split_blank_lines (s : string) : list string :=
  paragraphs (list_ascii_of_string s) [].

(** [s.split(':', 1)] for an [s] that holds a colon: what stands before the
    first colon, and what stands after it. *)
Fixpoint split_colon (s : string) : string * string :=
  match s with
  | EmptyString => (EmptyString, EmptyString)
  | String c s' =>
      if Ascii.eqb c ":" then (EmptyString, s')
      else let '(title, text) := split_colon s' in (String c title, text)
  end.

End Str.

(** ** Dictionaries keyed by a string *)

Module SDict.

Definition t (V : Type) : Type := list (string * V).

Fixpoint get {V} (d : t V) (k : string) : option V :=
  match d with
  | [] => None
  | (k', v) :: d' => if String.eqb k' k then Some v else get d' k
  end.

(** [d[k] = v]: an existing key keeps its position, a new key goes last. *)
Fixpoint set {V} (d : t V) (k : string) (v : V) : t V :=
  match d with
  | [] => [(k, v)]
  | (k', v') :: d' =>
      if String.eqb k' k then (k, v) :: d' else (k', v') :: set d' k v
  end.

Definition keys {V} (d : t V) : list string := map fst d.

(** [d[k]] *)
Definition item {V} (d : t V) (k : string) : Exc V :=
  match get d k with
  | Some v => ret v
  | None => raise KeyError
  end.

(** [max(d.keys())]: the first greatest key; the builtin raises
    [ValueError] on an empty dictionary. *)
Definition max_key {V} (d : t V) : Exc string :=
  match keys d with
  | [] => raise (ExternalError "ValueError: max() arg is an empty sequence")
  | first :: rest =>
      ret (fold_left (fun best k => if String.ltb best k then k else best) rest first)
  end.

End SDict.

Module ExternalModels.

(** Modelled from the spec: the [ExternalData] record of [src/models.py],
    which is not among the source files; the fields are those the tests'
    constructor calls supply. *)
Record ExternalData : Type := {
  year : Z;
  gdp_growth : float;
  population : Z;
  energy_demand : float;
  carbon_price : float;
  renewable_energy_share : float;
  biodiversity_index : float;
  deforestation_rate : float
}.

End ExternalModels.

(** ** src/risk_analysis/systemic_risk_analysis.py *)

Module SystemicRiskAnalysis.

Definition neighbor_influence
    (risk_network : Nx.Graph) (cascade_progression : Progression) (node : Z)
  : Exc float :=
  neighbors <- Nx.neighbors risk_network node ;;
  foldM
    (fun total neighbor =>
       activation <- last_item (Dict.get_default cascade_progression neighbor [0%float]) ;;
       data <- Nx.edge risk_network node neighbor ;;
       ret (total + activation * Nx.weight data)%float)
    neighbors 0%float.

Definition new_activations
    (risk_network : Nx.Graph) (cascade_progression : Progression) (threshold : float)
  : Exc (Dict.t float) :=
  foldM
    (fun new_activations node =>
       if negb (Dict.contains cascade_progression node)
       then
         influence <- neighbor_influence risk_network cascade_progression node ;;
         if (threshold <? influence)%float
         then ret (Dict.set new_activations node influence)
         else ret new_activations
       else ret new_activations)
    (Nx.nodes risk_network) [].

Definition backfill
    (cascade_progression : Progression) (new_activations : Dict.t float)
  : Exc Progression :=
  foldM
    (fun cascade_progression '(node, activation) =>
       first <- next_iter (Dict.values cascade_progression) ;;
       ret (Dict.set cascade_progression node
              (repeat 0%float (length first - 1) ++ [activation])))
    new_activations cascade_progression.

Definition extend (cascade_progression : Progression) : Exc Progression :=
  foldM
    (fun done '(node, progression) =>
       last <- last_item progression ;;
       ret (done ++ [(node, progression ++ [last])]))
    cascade_progression [].

Definition cascade_step
    (risk_network : Nx.Graph) (threshold : float) (cascade_progression : Progression)
  : Exc (option Progression) :=
  new <- new_activations risk_network cascade_progression threshold ;;
  match new with
  | [] => ret None
  | _ =>
      filled <- backfill cascade_progression new ;;
      extended <- extend filled ;;
      ret (Some extended)
  end.

Fixpoint cascade_loop
    (risk_network : Nx.Graph) (threshold : float) (steps : nat)
    (cascade_progression : Progression) : Exc Progression :=
  match steps with
  | O => ret cascade_progression
  | S steps' =>
      next <- cascade_step risk_network threshold cascade_progression ;;
      match next with
      | None => ret cascade_progression
      | Some cascade_progression' =>
          cascade_loop risk_network threshold steps' cascade_progression'
      end
  end.

Definition initial_progression (initial_risks : list Z) : Progression :=
  fold_left (fun d risk => Dict.set d risk [1%float]) initial_risks [].

Definition analyze_risk_cascades
    (risk_network : Nx.Graph) (initial_risks : list Z)
    (threshold : float) (max_steps : Z) : Exc Progression :=
  cascade_loop risk_network threshold (Z.to_nat max_steps)
    (initial_progression initial_risks).

Section Library.

Variable simple_cycles : Nx.Graph -> Exc (list (list Z)).

Definition identify_risk_feedback_loops (risk_network : Nx.Graph)
  : Exc (list (list Z)) :=
  feedback_loops <- simple_cycles risk_network ;;
  ret (filter (fun loop => 2 <? length loop) feedback_loops).

Variable nx_average_clustering : Nx.Graph -> Exc float.
Variable nx_mean_distance : Nx.Graph -> Exc float.
Variable nx_density : Nx.Graph -> Exc float.
Variable nx_degree_assortativity_coefficient : Nx.Graph -> Exc float.

Definition assess_network_resilience (risk_network : Nx.Graph)
  : Exc ResilienceMetrics :=
  clustering <- nx_average_clustering risk_network ;;
  path_length <- nx_average_shortest_path_length nx_mean_distance risk_network ;;
  density <- nx_density risk_network ;;
  assort <- nx_degree_assortativity_coefficient risk_network ;;
  ret {| average_clustering := clustering;
         average_shortest_path_length := path_length;
         graph_density := density;
         assortativity := assort |}.

End Library.

Import Models.

Definition systemic_keywords : list string :=
  ["market-wide"; "industry-wide"; "global"; "systemic"; "interconnected"]%string.

Definition is_systemic_risk
    (risk : Risk) (company_industry : string) (key_dependencies : list string) : bool :=
  existsb (fun keyword => Str.contains keyword (Str.lower (description risk)))
    systemic_keywords
  || existsb (fun dep => Str.contains (Str.lower dep) (Str.lower (description risk)))
       key_dependencies.

Definition identify_systemic_factor (risk : Risk) : string :=
  if Str.contains "financial" (Str.lower (description risk)) then "Financial System"
  else if Str.contains "supply chain" (Str.lower (description risk)) then "Supply Chain"
  else if Str.contains "geopolitical" (Str.lower (description risk)) then "Geopolitical"
  else "Other".

(** The value stored for a systemic risk. *)
Record SystemicEntry : Type := {
  entry_description : string;
  entry_impact : float;
  systemic_factor : string
}.

Definition analyze_systemic_risks
    (risks : list Risk) (company_industry : string) (key_dependencies : list string)
  : Dict.t SystemicEntry :=
  fold_left
    (fun systemic_risks risk =>
       if is_systemic_risk risk company_industry key_dependencies
       then Dict.set systemic_risks (id risk)
              {| entry_description := description risk;
                 entry_impact := impact risk;
                 systemic_factor := identify_systemic_factor risk |}
       else systemic_risks)
    risks [].

Section Formatting.

(** How an f-string renders a float and an int. *)
Variable format_float : float -> string.
Variable format_int : Z -> string.

Definition identify_relevant_external_factors
    (risk : Risk) (external_data : SDict.t ExternalModels.ExternalData)
  : Exc (list string) :=
  let relevant_factors := [] in
  latest_year <- SDict.max_key external_data ;;
  relevant_factors <-
    (if Str.contains "economic" (Str.lower (description risk))
     then
       latest <- SDict.item external_data latest_year ;;
       ret (relevant_factors
              ++ [("GDP Growth: "
                   ++ format_float (ExternalModels.gdp_growth latest) ++ "%")%string])
     else ret relevant_factors) ;;
  (if Str.contains "population" (Str.lower (description risk))
   then
     latest <- SDict.item external_data latest_year ;;
     ret (relevant_factors
            ++ [("Population: "
                 ++ format_int (ExternalModels.population latest))%string])
   else ret relevant_factors).

(** The value stored for a trigger point. *)
Record TriggerPoint : Type := {
  trigger_description : string;
  connected_risks : list Z;
  external_factors : list string
}.

Definition identify_trigger_points
    (risks : list Risk) (risk_network : Nx.Graph)
    (external_data : SDict.t ExternalModels.ExternalData)
  : Exc (Dict.t TriggerPoint) :=
  foldM
    (fun trigger_points risk =>
       neighbors <- Nx.neighbors risk_network (id risk) ;;
       if 2 <? length neighbors
       then
         factors <- identify_relevant_external_factors risk external_data ;;
         ret (Dict.set trigger_points (id risk)
                {| trigger_description := description risk;
                   connected_risks := neighbors;
                   external_factors := factors |})
       else ret trigger_points)
    risks [].

End Formatting.

End SystemicRiskAnalysis.

(** ** src/risk_analysis/advanced_analysis.py *)

Module AdvancedAnalysis.

(** The body of the loop: [state] is the dictionary read so far and the
    title of the current section. *)
Definition parse_section
    (state : SDict.t string * string) (section : string)
  : Exc (SDict.t string * string) :=
  let '(parsed_response, current_section) := state in
  if Str.contains ":" section
  then
    let '(title, text) := Str.split_colon section in
    let current_section := Str.underscore (Str.lower (Str.strip title)) in
    ret (SDict.set parsed_response current_section (Str.strip text), current_section)
  else
    so_far <- SDict.item parsed_response current_section ;;
    ret (SDict.set parsed_response current_section
           (so_far ++ String "010" (Str.strip section))%string,
         current_section).

Definition parse_llm_response (content : string) : Exc (SDict.t string) :=
  let sections := Str.split_blank_lines content in
  state <- foldM parse_section sections ([], ""%string) ;;
  ret (fst state).

End AdvancedAnalysis.

(** ** Inputs of the test suite *)

Module Fixtures.

Import Models.

Definition risk (i : Z) (text cat sub : string) : Risk :=
  {| id := i; description := text; category := cat;
     likelihood := 0.5; impact := 0.5; subcategory := sub;
     tertiary_category := ""; time_horizon := "";
     industry_specific := false; sasb_category := "" |}.

Definition interaction (a b : Z) (score : float) (kind : string) : RiskInteraction :=
  {| risk1_id := a; risk2_id := b; interaction_score := score;
     interaction_type := kind; analysis := None |}.

(** [sample_risks] and [sample_interactions] of test_interaction_analysis.py *)
Definition sample_risks : list Risk :=
  [ risk 1 "Physical Risk 1" "Physical" "Acute";
    risk 2 "Transition Risk 1" "Transition" "Policy";
    risk 3 "Market Risk 1" "Market" "Demand";
    risk 4 "Physical Risk 2" "Physical" "Chronic" ].

Definition sample_interactions : list RiskInteraction :=
  [ interaction 1 2 0.7 "Strong";
    interaction 1 3 0.4 "Moderate";
    interaction 2 3 0.6 "Moderate";
    interaction 2 4 0.8 "Strong";
    interaction 3 4 0.5 "Moderate" ].

Definition sample_network : Nx.Graph :=
  InteractionAnalysis.build_risk_network sample_risks sample_interactions.

(** The disconnected network of [test_network_analysis_edge_cases]. *)
Definition disconnected_risks : list Risk :=
  [ risk 1 "Risk 1" "Physical" ""; risk 2 "Risk 2" "Physical" "";
    risk 3 "Risk 3" "Physical" ""; risk 4 "Risk 4" "Physical" "" ].

Definition disconnected_interactions : list RiskInteraction :=
  [ interaction 1 2 0.5 "Moderate"; interaction 3 4 0.5 "Moderate" ].

Definition disconnected_network : Nx.Graph :=
  InteractionAnalysis.build_risk_network disconnected_risks disconnected_interactions.

(** A chain 1 - 2 - 3, where node 3 is reached only in the second step. *)
Definition chain_risks : list Risk :=
  [ risk 1 "Risk 1" "Physical" ""; risk 2 "Risk 2" "Physical" "";
    risk 3 "Risk 3" "Physical" "" ].

Definition chain_interactions : list RiskInteraction :=
  [ interaction 1 2 0.8 "Strong"; interaction 2 3 0.9 "Strong" ].

Definition chain_network : Nx.Graph :=
  InteractionAnalysis.build_risk_network chain_risks chain_interactions.

End Fixtures.

(** ** Vocabulary of the properties *)

(** The closed interval [[0, 1]] of interaction scores. *)
Definition in_unit_interval (x : float) : bool :=
  ((0 <=? x) && (x <=? 1))%float.

(** The unordered pair of two identifiers, smaller one first. *)
Definition unordered_pair (a b : Z) : Z * Z := (Z.min a b, Z.max a b).

Definition interaction_pair (i : Models.RiskInteraction) : Z * Z :=
  unordered_pair (Models.risk1_id i) (Models.risk2_id i).

Definition edge_data_of (i : Models.RiskInteraction) : Nx.EdgeData :=
  {| Nx.weight := Models.interaction_score i;
     Nx.type := Models.interaction_type i |}.

(** The two ids of an interaction, in the order it holds them. *)
Definition interaction_ends (i : Models.RiskInteraction) : Z * Z :=
  (Models.risk1_id i, Models.risk2_id i).

(** The pairs [(xs[i], xs[j])] with [i < j], in the order in which two
    nested loops over [xs] and [xs[i+1:]] meet them. *)
Fixpoint pairs_in_order {A} (xs : list A) : list (A * A) :=
  match xs with
  | [] => []
  | x :: rest => map (pair x) rest ++ pairs_in_order rest
  end.

(** A text all of whose characters are ASCII: [s.isascii()]. *)
Definition ascii_text (s : string) : bool :=
  forallb (fun c => nat_of_ascii c <? 128) (list_ascii_of_string s).

(** [k] passes of the cascade loop body, each of which activated a node. *)
Inductive productive_steps (G : Nx.Graph) (threshold : float)
  : nat -> Progression -> Progression -> Prop :=
| productive_done : forall cp, productive_steps G threshold 0 cp cp
| productive_next : forall k cp cp' cp'',
    InteractionAnalysis.cascade_step G threshold cp = inr (Some cp') ->
    productive_steps G threshold k cp' cp'' ->
    productive_steps G threshold (S k) cp cp''.

(** A series of [k] zeros followed by one or more entries, all of them [v]:
    the entry of index [k] is the activation entry. *)
Definition held_from (k : nat) (v : float) (series : list float) : Prop :=
  exists m, series = repeat 0%float k ++ repeat v (S m).

(** What the third loop of a cascade step does to one entry. *)
Definition extended (x : Z * list float) : Z * list float :=
  (fst x, snd x ++ [last (snd x) 0%float]).

(** A graph whose nodes have no neighbours yet. *)
Definition edgeless (G : Nx.Graph) : Prop :=
  Forall (fun x => Nx.nbrs (snd x) = []) G.

(** Whether an interaction lies over the unordered pair of [a] and [b]. *)
Definition joins (a b : Z) (i : Models.RiskInteraction) : bool :=
  ((a =? Models.risk1_id i)%Z && (b =? Models.risk2_id i)%Z)
  || ((a =? Models.risk2_id i)%Z && (b =? Models.risk1_id i)%Z).

(** The unordered pairs of a list of interactions, each listed once. *)
Definition distinct_pairs (interactions : list Models.RiskInteraction) : list (Z * Z) :=
  nodup (fun p q : Z * Z =>
           match Z.eq_dec (fst p) (fst q), Z.eq_dec (snd p) (snd q) with
           | left Hfst, left Hsnd =>
               left (eq_trans (surjective_pairing p)
                       (eq_trans (f_equal2 pair Hfst Hsnd)
                          (eq_sym (surjective_pairing q))))
           | right Hfst, _ => right (fun Heq => Hfst (f_equal fst Heq))
           | _, right Hsnd => right (fun Heq => Hsnd (f_equal snd Heq))
           end)
    (map interaction_pair interactions).

(** An interaction whose fields derive from its stored analysis text: the
    score is extracted from the text and the type is read off the score. *)
Definition derived_from_analysis (i : Models.RiskInteraction) : Prop :=
  exists text,
    Models.analysis i = Some text
    /\ Models.interaction_score i
       = InteractionAnalysis.extract_interaction_score text
    /\ Models.interaction_type i
       = InteractionAnalysis.determine_interaction_type (Models.interaction_score i).

(** An entry of the correlation dictionary that is what [pearsonr] returned
    for the two series stored under its ids. *)
Definition correlation_of
    (pearsonr : list float -> list float -> Exc (float * float))
    (simulation_results : Dict.t (list float))
    (entry : (Z * Z) * float) : Prop :=
  exists x y p,
    Dict.get simulation_results (fst (fst entry)) = Some x
    /\ Dict.get simulation_results (snd (fst entry)) = Some y
    /\ pearsonr x y = inr (snd entry, p).

(** A section title as the parser stores it: no space and no capital
    letter. *)
Definition normalized_key (k : string) : bool :=
  forallb
    (fun c =>
       negb (Ascii.eqb c " ")
       && negb ((65 <=? nat_of_ascii c) && (nat_of_ascii c <=? 90)))
    (list_ascii_of_string k).

(** An entry of a cascade state that is accounted for: a seed, or a node of
    the graph that was activated above the threshold and has been held
    since. *)
Definition accounted_for
    (G : Nx.Graph) (threshold : float) (initial_risks : list Z)
    (x : Z * list float) : Prop :=
  In (fst x) initial_risks
  \/ (In (fst x) (Nx.nodes G)
      /\ exists k v, held_from k v (snd x) /\ (threshold <? v)%float = true).

Module StandIns.

(** Library stand-ins that return a fixed value. *)
Definition constant_metric (x : float) (G : Nx.Graph) : Exc float := ret x.

(** A chat service that answers every prompt with the same text and counts
    its calls. *)
Definition canned_service (answer : string) (prompt : string) (calls : nat)
  : Exc string * nat := (inr answer, S calls).

Definition plain_prompt (d1 c1 s1 d2 c2 s2 : string) : string :=
  (d1 ++ " / " ++ d2)%string.

End StandIns.

(** * Properties *)

(** ** Binary64 comparisons *)

Lemma SFcompare_antisym (x y : spec_float) :
  SFcompare y x = option_map CompOpp (SFcompare x y).
Proof.
  destruct x as [sx|sx| |sx mx ex], y as [sy|sy| |sy my ey]; simpl;
    try reflexivity;
    try (destruct sx; reflexivity); try (destruct sy; reflexivity);
    try (destruct sx, sy; reflexivity).
  change (Pos.compare_cont Eq my mx) with (Pos.compare my mx).
  change (Pos.compare_cont Eq mx my) with (Pos.compare mx my).
  rewrite (Pos.compare_antisym mx my).
  change (IntDef.Z.compare ey ex) with (Z.compare ey ex).
  change (IntDef.Z.compare ex ey) with (Z.compare ex ey).
  rewrite (Z.compare_antisym ex ey).
  destruct sx, sy; simpl; try reflexivity;
    destruct (ex ?= ey)%Z; simpl; reflexivity.
Qed.

Lemma leb_not_ltb (x y : float) :
  (x <=? y)%float = true -> (y <? x)%float = false.
Proof.
  rewrite leb_spec, ltb_spec. unfold SFleb, SFltb.
  rewrite (SFcompare_antisym (Prim2SF x) (Prim2SF y)).
  destruct (SFcompare (Prim2SF x) (Prim2SF y)) as [[]|]; simpl; congruence.
Qed.

Lemma above_07_not_below_03 (s : float) :
  (0.7 <=? s)%float = true -> (s <? 0.3)%float = false.
Proof.
  rewrite leb_spec, ltb_spec.
  replace (Prim2SF 0.7) with (S754_finite false 6305039478318694 (-53))
    by (vm_compute; reflexivity).
  replace (Prim2SF 0.3) with (S754_finite false 5404319552844595 (-54))
    by (vm_compute; reflexivity).
  destruct (Prim2SF s) as [sg|sg| |sg m e]; unfold SFleb, SFltb, SFcompare;
    try congruence; try (destruct sg; congruence).
  destruct sg; try congruence.
  change (IntDef.Z.compare (-53) e) with (Z.compare (-53) e).
  change (IntDef.Z.compare e (-54)) with (Z.compare e (-54)).
  destruct (Z.compare_spec (-53) e); destruct (Z.compare_spec e (-54));
    try lia; congruence.
Qed.

(** ** Classification *)

(** C2: the interaction type is a function of the score alone: a score below
    0.3 is Weak, a score from 0.3 up to but excluding 0.7 is Moderate, and a
    score of 0.7 or more is Strong; in particular 0.29 is Weak, 0.30 and 0.69
    are Moderate and 0.70 is Strong. *)
Theorem determine_interaction_type_bands (s : float) :
  ((s <? 0.3)%float = true ->
     InteractionAnalysis.determine_interaction_type s = "Weak"%string)
  /\ ((0.3 <=? s)%float = true -> (s <? 0.7)%float = true ->
     InteractionAnalysis.determine_interaction_type s = "Moderate"%string)
  /\ ((0.7 <=? s)%float = true ->
     InteractionAnalysis.determine_interaction_type s = "Strong"%string)
  /\ InteractionAnalysis.determine_interaction_type 0.29 = "Weak"%string
  /\ InteractionAnalysis.determine_interaction_type 0.30 = "Moderate"%string
  /\ InteractionAnalysis.determine_interaction_type 0.69 = "Moderate"%string
  /\ InteractionAnalysis.determine_interaction_type 0.70 = "Strong"%string.
Proof.
  unfold InteractionAnalysis.determine_interaction_type.
  repeat split; try (vm_compute; reflexivity).
  - intros H. now rewrite H.
  - intros Hlow Hhigh. now rewrite (leb_not_ltb _ _ Hlow), Hhigh.
  - intros H. now rewrite (above_07_not_below_03 _ H), (leb_not_ltb _ _ H).
Qed.

Lemma determine_interaction_type_bands_witness :
  InteractionAnalysis.determine_interaction_type 0.5 = "Moderate"%string
  /\ InteractionAnalysis.determine_interaction_type 0.9 = "Strong"%string
  /\ InteractionAnalysis.determine_interaction_type 0.1 = "Weak"%string.
Proof.
  split; [|split].
  - apply (proj1 (proj2 (determine_interaction_type_bands 0.5))); reflexivity.
  - apply (proj1 (proj2 (proj2 (determine_interaction_type_bands 0.9)))); reflexivity.
  - apply (proj1 (determine_interaction_type_bands 0.1)); reflexivity.
Defined.

(** ** Score extraction *)

Lemma extract_interaction_score_default (analysis : string) :
  Re.findall analysis = [] ->
  InteractionAnalysis.extract_interaction_score analysis = 0.5%float.
Proof.
  unfold InteractionAnalysis.extract_interaction_score. now intros ->.
Qed.

Lemma extract_interaction_score_last (analysis : string) tokens token :
  Re.findall analysis = tokens ++ [token] ->
  InteractionAnalysis.extract_interaction_score analysis = Re.float_of_token token.
Proof.
  unfold InteractionAnalysis.extract_interaction_score. intros ->.
  now rewrite rev_app_distr.
Qed.

(** C6: on a response whose last number is a risk's label, the extracted
    score is that number and lies outside [[0, 1]]. *)
Theorem extract_interaction_score_unbounded :
  InteractionAnalysis.extract_interaction_score
    "Interaction score: 0.8. Risk 1 strongly amplifies Risk 2" = 2%float
  /\ in_unit_interval
       (InteractionAnalysis.extract_interaction_score
          "Interaction score: 0.8. Risk 1 strongly amplifies Risk 2") = false.
Proof. split; vm_compute; reflexivity. Qed.

(** ** The two modules agree *)

Lemma cascade_step_agree G threshold cp :
  InteractionAnalysis.cascade_step G threshold cp
  = SystemicRiskAnalysis.cascade_step G threshold cp.
Proof. reflexivity. Qed.

Lemma cascade_loop_agree G threshold steps :
  forall cp,
    InteractionAnalysis.cascade_loop G threshold steps cp
    = SystemicRiskAnalysis.cascade_loop G threshold steps cp.
Proof.
  induction steps as [|steps IH]; intros cp; simpl.
  - reflexivity.
  - rewrite cascade_step_agree.
    destruct (SystemicRiskAnalysis.cascade_step G threshold cp) as [e|[cp'|]];
      simpl; auto.
Qed.

(** C10: the cascade routines of the two modules return the same result on
    every graph, seed list, threshold and step budget, and so do their
    feedback-loop routines on every graph and cycle finder. *)
Theorem modules_agree :
  (forall G initial_risks threshold max_steps,
      InteractionAnalysis.analyze_risk_cascades G initial_risks threshold max_steps
      = SystemicRiskAnalysis.analyze_risk_cascades G initial_risks threshold max_steps)
  /\ (forall simple_cycles G,
      InteractionAnalysis.identify_risk_feedback_loops simple_cycles G
      = SystemicRiskAnalysis.identify_risk_feedback_loops simple_cycles G).
Proof.
  split.
  - intros G initial_risks threshold max_steps.
    unfold InteractionAnalysis.analyze_risk_cascades,
      SystemicRiskAnalysis.analyze_risk_cascades.
    apply cascade_loop_agree.
  - intros simple_cycles G.
    unfold InteractionAnalysis.identify_risk_feedback_loops,
      SystemicRiskAnalysis.identify_risk_feedback_loops.
    destruct (simple_cycles G); reflexivity.
Qed.

(** ** Resilience metrics *)

Lemma average_shortest_path_length_disconnected mean_distance (G : Nx.Graph) :
  2 <= length G ->
  Nx.is_connected G = inr false ->
  nx_average_shortest_path_length mean_distance G
  = inl (NetworkXError "Graph is not connected.").
Proof.
  intros Hsize Hconn. unfold nx_average_shortest_path_length.
  destruct (length G) as [|[|n]]; try lia.
  now rewrite Hconn.
Qed.

(** C4: on a graph of two or more nodes that is not connected, the
    resilience routines of both modules raise the library's error once the
    clustering coefficient has been computed, and return no metric. *)
Theorem resilience_raises_when_disconnected
    clustering mean_distance density assort (G : Nx.Graph) (c : float) :
  2 <= length G ->
  Nx.is_connected G = inr false ->
  clustering G = inr c ->
  InteractionAnalysis.analyze_network_resilience
    clustering mean_distance density assort G
  = inl (NetworkXError "Graph is not connected.")
  /\ SystemicRiskAnalysis.assess_network_resilience
       clustering mean_distance density assort G
     = inl (NetworkXError "Graph is not connected.").
Proof.
  intros Hsize Hconn Hclust.
  unfold InteractionAnalysis.analyze_network_resilience,
    SystemicRiskAnalysis.assess_network_resilience.
  rewrite Hclust; simpl.
  now rewrite (average_shortest_path_length_disconnected mean_distance G Hsize Hconn).
Qed.

Lemma resilience_raises_when_disconnected_witness :
  InteractionAnalysis.analyze_network_resilience
    (StandIns.constant_metric 0) (StandIns.constant_metric 1)
    (StandIns.constant_metric 0.5) (StandIns.constant_metric 0)
    Fixtures.disconnected_network
  = inl (NetworkXError "Graph is not connected.")
  /\ SystemicRiskAnalysis.assess_network_resilience
       (StandIns.constant_metric 0) (StandIns.constant_metric 1)
       (StandIns.constant_metric 0.5) (StandIns.constant_metric 0)
       Fixtures.disconnected_network
     = inl (NetworkXError "Graph is not connected.").
Proof.
  apply (resilience_raises_when_disconnected
           (StandIns.constant_metric 0) (StandIns.constant_metric 1)
           (StandIns.constant_metric 0.5) (StandIns.constant_metric 0)
           Fixtures.disconnected_network 0%float).
  - vm_compute. lia.
  - vm_compute. reflexivity.
  - reflexivity.
Defined.

(** ** Dictionaries *)

Section DictFacts.

Context {V : Type}.
Implicit Types (d : Dict.t V) (k : Z) (v : V).

Lemma get_set_same d k v : Dict.get (Dict.set d k v) k = Some v.
Proof.
  induction d as [|[k' v'] d IH]; simpl.
  - now rewrite Z.eqb_refl.
  - destruct (Z.eqb_spec k' k) as [->|Hne]; simpl.
    + now rewrite Z.eqb_refl.
    + destruct (Z.eqb_spec k' k); [contradiction|exact IH].
Qed.

Lemma get_set_other d k k' v :
  k <> k' -> Dict.get (Dict.set d k v) k' = Dict.get d k'.
Proof.
  intros Hne. induction d as [|[k0 v0] d IH]; simpl.
  - destruct (Z.eqb_spec k k'); [contradiction|reflexivity].
  - destruct (Z.eqb_spec k0 k) as [->|Hk0]; simpl.
    + destruct (Z.eqb_spec k k'); [contradiction|reflexivity].
    + now rewrite IH.
Qed.

Lemma get_None_keys d k : Dict.get d k = None <-> ~ In k (Dict.keys d).
Proof.
  induction d as [|[k' v'] d IH]; simpl.
  - tauto.
  - destruct (Z.eqb_spec k' k) as [->|Hne].
    + split; [discriminate|]. intros H. exfalso. apply H. now left.
    + rewrite IH. split; [intros H [Heq|Hin]; [contradiction|auto]|tauto].
Qed.

Lemma get_Some_keys d k v : Dict.get d k = Some v -> In k (Dict.keys d).
Proof.
  intros Hget. destruct (in_dec Z.eq_dec k (Dict.keys d)) as [Hin|Hnot]; auto.
  apply get_None_keys in Hnot. congruence.
Qed.

Lemma keys_get d k : In k (Dict.keys d) -> exists v, Dict.get d k = Some v.
Proof.
  intros Hin. destruct (Dict.get d k) as [v|] eqn:Hget; eauto.
  apply get_None_keys in Hget. contradiction.
Qed.

Lemma keys_set_present d k v v' :
  Dict.get d k = Some v' -> Dict.keys (Dict.set d k v) = Dict.keys d.
Proof.
  induction d as [|[k0 v0] d IH]; simpl; [discriminate|].
  destruct (Z.eqb_spec k0 k) as [->|Hne]; simpl; intros H.
  - reflexivity.
  - now rewrite (IH H).
Qed.

Lemma set_fresh d k v :
  Dict.get d k = None -> Dict.set d k v = d ++ [(k, v)].
Proof.
  induction d as [|[k0 v0] d IH]; simpl; [reflexivity|].
  destruct (Z.eqb_spec k0 k) as [->|Hne]; [discriminate|].
  intros H. now rewrite (IH H).
Qed.

Lemma length_set_present d k v v' :
  Dict.get d k = Some v' -> length (Dict.set d k v) = length d.
Proof.
  intros H. rewrite <- (length_map fst (Dict.set d k v)), <- (length_map fst d).
  change (length (Dict.keys (Dict.set d k v)) = length (Dict.keys d)).
  now rewrite (keys_set_present d k v v' H).
Qed.

Lemma length_set_fresh d k v :
  Dict.get d k = None -> length (Dict.set d k v) = S (length d).
Proof.
  intros H. rewrite (set_fresh d k v H), length_app. simpl. lia.
Qed.

Lemma contains_set_other d k k' v :
  k <> k' -> Dict.contains (Dict.set d k v) k' = Dict.contains d k'.
Proof.
  intros Hne. unfold Dict.contains. now rewrite get_set_other.
Qed.

(** Every entry of [Dict.set d k v] is an entry of [d] or the new one. *)
Lemma in_set d k v (x : Z * V) :
  In x (Dict.set d k v) -> In x d \/ x = (k, v).
Proof.
  induction d as [|[k0 v0] d IH]; simpl.
  - intros [<-|[]]. now right.
  - destruct (Z.eqb_spec k0 k) as [->|Hne]; simpl.
    + intros [<-|Hin]; auto.
    + intros [<-|Hin]; auto. destruct (IH Hin); auto.
Qed.

End DictFacts.

(** ** Graph construction *)

Section GraphFacts.

Implicit Types (G : Nx.Graph) (u v a b n : Z) (d : Nx.EdgeData).

Lemma touch_present G n : In n (Dict.keys G) -> Nx.touch G n = G.
Proof.
  intros Hin. unfold Nx.touch.
  destruct (keys_get G n Hin) as [e ->]. reflexivity.
Qed.

Lemma get_touch_same G n : exists e, Dict.get (Nx.touch G n) n = Some e.
Proof.
  unfold Nx.touch. destruct (Dict.get G n) as [e|] eqn:Hget.
  - eauto.
  - rewrite get_set_same. eauto.
Qed.

Lemma get_touch_kept G n m e :
  Dict.get G m = Some e -> Dict.get (Nx.touch G n) m = Some e.
Proof.
  intros Hm. unfold Nx.touch. destruct (Dict.get G n) as [e'|] eqn:Hget; auto.
  rewrite get_set_other; auto. congruence.
Qed.

Lemma lookup_touch G n a b :
  Nx.lookup_edge (Nx.touch G n) a b = Nx.lookup_edge G a b.
Proof.
  unfold Nx.touch, Nx.lookup_edge.
  destruct (Dict.get G n) as [e|] eqn:Hget; auto.
  destruct (Z.eq_dec n a) as [->|Hne].
  - now rewrite get_set_same, Hget.
  - now rewrite get_set_other.
Qed.

Lemma keys_set_nbr G u v d : Dict.keys (Nx.set_nbr G u v d) = Dict.keys G.
Proof.
  unfold Nx.set_nbr. destruct (Dict.get G u) as [e|] eqn:Hget; auto.
  now apply keys_set_present with (v' := e).
Qed.

Lemma get_set_nbr_kept G u v d m e :
  Dict.get G m = Some e -> exists e', Dict.get (Nx.set_nbr G u v d) m = Some e'.
Proof.
  intros Hm. apply keys_get. rewrite keys_set_nbr.
  now apply get_Some_keys with (v := e).
Qed.

Lemma lookup_set_nbr G u v d a b e :
  Dict.get G u = Some e ->
  Nx.lookup_edge (Nx.set_nbr G u v d) a b
  = if (a =? u)%Z && (b =? v)%Z then Some d else Nx.lookup_edge G a b.
Proof.
  intros Hu. unfold Nx.set_nbr, Nx.lookup_edge. rewrite Hu.
  destruct (Z.eqb_spec a u) as [->|Hau]; simpl.
  - rewrite get_set_same, Hu; simpl.
    destruct (Z.eqb_spec b v) as [->|Hbv].
    + apply get_set_same.
    + apply get_set_other. congruence.
  - rewrite get_set_other; auto.
Qed.

Lemma lookup_add_edge G u v d a b :
  Nx.lookup_edge (Nx.add_edge G u v d) a b
  = if ((a =? u)%Z && (b =? v)%Z) || ((a =? v)%Z && (b =? u)%Z)
    then Some d else Nx.lookup_edge G a b.
Proof.
  unfold Nx.add_edge.
  destruct (get_touch_same G u) as [eu Hu].
  pose proof (get_touch_kept _ v _ _ Hu) as Hu'.
  destruct (get_touch_same (Nx.touch G u) v) as [ev Hv].
  destruct (get_set_nbr_kept _ u v d _ _ Hv) as [ev' Hv'].
  rewrite (lookup_set_nbr _ v u d a b ev' Hv').
  rewrite (lookup_set_nbr _ u v d a b eu Hu').
  rewrite !lookup_touch.
  destruct ((a =? u)%Z && (b =? v)%Z), ((a =? v)%Z && (b =? u)%Z); reflexivity.
Qed.

Lemma keys_add_edge G u v d :
  In u (Dict.keys G) -> In v (Dict.keys G) ->
  Dict.keys (Nx.add_edge G u v d) = Dict.keys G.
Proof.
  intros Hu Hv. unfold Nx.add_edge.
  rewrite !keys_set_nbr, (touch_present G u Hu), (touch_present G v Hv).
  reflexivity.
Qed.

Lemma in_nodes_add_edge G u v d :
  In u (Nx.nodes (Nx.add_edge G u v d)) /\ In v (Nx.nodes (Nx.add_edge G u v d)).
Proof.
  unfold Nx.nodes, Nx.add_edge. rewrite !keys_set_nbr.
  destruct (get_touch_same G u) as [eu Hu].
  destruct (get_touch_same (Nx.touch G u) v) as [ev Hv].
  split.
  - apply get_Some_keys with (v := eu). now apply get_touch_kept.
  - now apply get_Some_keys with (v := ev).
Qed.

Lemma edge_ends_set G u (e e' : Nx.NodeEntry) :
  Dict.get G u = Some e ->
  Nx.edge_ends (Dict.set G u e') + Nx.ends_at u e
  = Nx.edge_ends G + Nx.ends_at u e'.
Proof.
  induction G as [|[k0 e0] G IH]; simpl; [discriminate|].
  destruct (Z.eqb_spec k0 u) as [->|Hne]; simpl.
  - intros [= ->]. lia.
  - intros H. specialize (IH H). lia.
Qed.

Lemma edge_ends_set_nbr_fresh G u v d :
  u <> v ->
  In u (Dict.keys G) ->
  Nx.lookup_edge G u v = None ->
  Nx.edge_ends (Nx.set_nbr G u v d) = S (Nx.edge_ends G).
Proof.
  intros Hne Hin Hfresh. unfold Nx.set_nbr, Nx.lookup_edge in *.
  destruct (keys_get G u Hin) as [e He]. rewrite He in *.
  pose proof (edge_ends_set G u e
                {| Nx.attr := Nx.attr e; Nx.nbrs := Dict.set (Nx.nbrs e) v d |} He)
    as Hsum.
  unfold Nx.ends_at in Hsum; simpl in Hsum.
  rewrite (length_set_fresh _ _ _ Hfresh) in Hsum.
  rewrite contains_set_other in Hsum by congruence.
  lia.
Qed.

Lemma edge_ends_add_edge_fresh G u v d :
  u <> v ->
  In u (Dict.keys G) -> In v (Dict.keys G) ->
  Nx.lookup_edge G u v = None -> Nx.lookup_edge G v u = None ->
  Nx.edge_ends (Nx.add_edge G u v d) = Nx.edge_ends G + 2.
Proof.
  intros Hne Hu Hv Huv Hvu. unfold Nx.add_edge.
  rewrite (touch_present G u Hu), (touch_present G v Hv).
  destruct (keys_get G u Hu) as [eu Heu].
  rewrite edge_ends_set_nbr_fresh.
  - rewrite edge_ends_set_nbr_fresh; auto. lia.
  - congruence.
  - now rewrite keys_set_nbr.
  - rewrite (lookup_set_nbr G u v d v u eu Heu).
    destruct (Z.eqb_spec v u); [congruence|exact Hvu].
Qed.

End GraphFacts.

Section BuildFacts.

Import Models.

Local Abbreviation add_nodes :=
  (fold_left (fun G risk => Nx.add_node G (id risk) risk)).
Local Abbreviation add_edges :=
  (fold_left
     (fun G interaction =>
        Nx.add_edge G (risk1_id interaction) (risk2_id interaction)
          {| Nx.weight := interaction_score interaction;
             Nx.type := interaction_type interaction |})).

Lemma edgeless_add_node G n r : edgeless G -> edgeless (Nx.add_node G n r).
Proof.
  unfold edgeless. rewrite !Forall_forall. intros HG x Hin.
  unfold Nx.add_node in Hin.
  destruct (Dict.get G n) as [e|] eqn:Hget;
    apply in_set in Hin; destruct Hin as [Hin| ->]; auto; simpl.
  induction G as [|[k0 e0] G IH]; simpl in Hget; [discriminate|].
  destruct (Z.eqb_spec k0 n).
  - injection Hget as <-. apply (HG (k0, e0)). now left.
  - apply IH; auto. intros y Hy. apply HG. now right.
Qed.

Lemma edgeless_add_nodes risks :
  forall G, edgeless G -> edgeless (add_nodes risks G).
Proof.
  induction risks as [|r risks IH]; intros G HG; simpl; auto.
  apply IH. now apply edgeless_add_node.
Qed.

Lemma edgeless_lookup G a b : edgeless G -> Nx.lookup_edge G a b = None.
Proof.
  unfold edgeless, Nx.lookup_edge. intros HG.
  induction G as [|[k0 e0] G IH]; simpl; auto.
  inversion HG as [|x l Hx Hl]; subst. simpl in Hx.
  destruct (Z.eqb_spec k0 a); auto. now rewrite Hx.
Qed.

Lemma edgeless_edge_ends G : edgeless G -> Nx.edge_ends G = 0.
Proof.
  unfold edgeless. induction G as [|[k0 e0] G IH]; simpl; auto.
  intros HG. inversion HG as [|x l Hx Hl]; subst. simpl in Hx.
  rewrite (IH Hl). unfold Nx.ends_at. now rewrite Hx.
Qed.

Lemma keys_add_nodes risks :
  forall G,
    NoDup (Dict.keys G ++ map id risks) ->
    Dict.keys (add_nodes risks G) = Dict.keys G ++ map id risks.
Proof.
  induction risks as [|r risks IH]; intros G Hnodup; simpl.
  - now rewrite app_nil_r.
  - assert (Hfresh : Dict.get G (id r) = None).
    { apply get_None_keys. intros Hin.
      apply NoDup_remove_2 in Hnodup. apply Hnodup.
      apply in_or_app. now left. }
    assert (Hkeys : Dict.keys (Nx.add_node G (id r) r) = Dict.keys G ++ [id r]).
    { unfold Nx.add_node. rewrite Hfresh, set_fresh by exact Hfresh.
      unfold Dict.keys. now rewrite map_app. }
    rewrite IH; rewrite Hkeys, <- app_assoc; simpl; auto.
Qed.

Lemma unordered_pair_eq a b u v :
  unordered_pair a b = unordered_pair u v <->
  (a = u /\ b = v) \/ (a = v /\ b = u).
Proof.
  unfold unordered_pair. split.
  - intros [= Hmin Hmax]. lia.
  - intros [[-> ->]|[-> ->]]; [reflexivity|].
    now rewrite Z.min_comm, Z.max_comm.
Qed.

Lemma other_pair_test a b u v :
  unordered_pair a b <> unordered_pair u v ->
  ((a =? u)%Z && (b =? v)%Z) || ((a =? v)%Z && (b =? u)%Z) = false.
Proof.
  intros Hne.
  destruct (Z.eqb_spec a u), (Z.eqb_spec b v), (Z.eqb_spec a v), (Z.eqb_spec b u);
    simpl; auto; exfalso; apply Hne; apply unordered_pair_eq; auto.
Qed.

Lemma same_pair_test u v :
  ((u =? u)%Z && (v =? v)%Z) || ((u =? v)%Z && (v =? u)%Z) = true.
Proof. now rewrite !Z.eqb_refl. Qed.

Lemma swapped_pair_test u v :
  ((v =? u)%Z && (u =? v)%Z) || ((v =? v)%Z && (u =? u)%Z) = true.
Proof. rewrite !Z.eqb_refl. apply orb_true_r. Qed.

(** The edges of a list of interactions that are new to the graph and
    pairwise different: node set, edge ends, and every lookup. *)
Lemma add_edges_fresh interactions :
  forall G,
    NoDup (map interaction_pair interactions) ->
    Forall
      (fun i =>
         In (risk1_id i) (Dict.keys G) /\ In (risk2_id i) (Dict.keys G)
         /\ risk1_id i <> risk2_id i
         /\ Nx.lookup_edge G (risk1_id i) (risk2_id i) = None
         /\ Nx.lookup_edge G (risk2_id i) (risk1_id i) = None)
      interactions ->
    Dict.keys (add_edges interactions G) = Dict.keys G
    /\ Nx.edge_ends (add_edges interactions G)
       = Nx.edge_ends G + 2 * length interactions
    /\ (forall a b,
           ~ In (unordered_pair a b) (map interaction_pair interactions) ->
           Nx.lookup_edge (add_edges interactions G) a b = Nx.lookup_edge G a b)
    /\ Forall
         (fun i =>
            Nx.lookup_edge (add_edges interactions G) (risk1_id i) (risk2_id i)
            = Some (edge_data_of i)
            /\ Nx.lookup_edge (add_edges interactions G) (risk2_id i) (risk1_id i)
               = Some (edge_data_of i))
         interactions.
Proof.
  induction interactions as [|i rest IH]; intros G Hnodup Hall.
  - simpl. repeat split; auto; lia.
  - inversion Hnodup as [|p ps Hnotin Hnodup']; subst.
    inversion Hall as [|x xs Hi Hrest]; subst.
    destruct Hi as (Hu & Hv & Hne & Huv & Hvu).
    simpl fold_left.
    set (G1 := Nx.add_edge G (risk1_id i) (risk2_id i) _).
    assert (Hkeys1 : Dict.keys G1 = Dict.keys G) by now apply keys_add_edge.
    assert (Hends1 : Nx.edge_ends G1 = Nx.edge_ends G + 2)
      by now apply edge_ends_add_edge_fresh.
    assert (Hother : forall a b,
               unordered_pair a b <> interaction_pair i ->
               Nx.lookup_edge G1 a b = Nx.lookup_edge G a b).
    { intros a b Hab. unfold G1. rewrite lookup_add_edge.
      now rewrite other_pair_test. }
    assert (Hall1 : Forall
              (fun j =>
                 In (risk1_id j) (Dict.keys G1) /\ In (risk2_id j) (Dict.keys G1)
                 /\ risk1_id j <> risk2_id j
                 /\ Nx.lookup_edge G1 (risk1_id j) (risk2_id j) = None
                 /\ Nx.lookup_edge G1 (risk2_id j) (risk1_id j) = None)
              rest).
    { rewrite Forall_forall in *. intros j Hj.
      destruct (Hrest j Hj) as (Hju & Hjv & Hjne & Hjuv & Hjvu).
      assert (Hpair : interaction_pair j <> interaction_pair i).
      { intros Heq. apply Hnotin. rewrite <- Heq. now apply in_map. }
      rewrite Hkeys1. repeat split; auto.
      - rewrite Hother; auto.
      - rewrite Hother; auto.
        intros Heq. apply Hpair. rewrite <- Heq.
        apply unordered_pair_eq. now right. }
    destruct (IH G1 Hnodup' Hall1) as (Hkeys & Hends & Hkeep & Hset).
    repeat split.
    + now rewrite Hkeys.
    + rewrite Hends, Hends1. simpl length. lia.
    + intros a b Hab. rewrite Hkeep.
      * apply Hother. intros Heq. apply Hab. now left.
      * intros Hin. apply Hab. now right.
    + constructor; auto. split.
      * rewrite Hkeep by exact Hnotin. unfold G1. rewrite lookup_add_edge.
        now rewrite same_pair_test.
      * rewrite Hkeep.
        -- unfold G1. rewrite lookup_add_edge. now rewrite swapped_pair_test.
        -- intros Hin. apply Hnotin.
           replace (interaction_pair i)
             with (unordered_pair (risk2_id i) (risk1_id i)); auto.
           apply unordered_pair_eq. now right.
Qed.

(** Lookups in a built graph do not depend on the order of the two nodes. *)
Lemma add_edges_symmetric interactions :
  forall G,
    (forall a b, Nx.lookup_edge G a b = Nx.lookup_edge G b a) ->
    forall a b,
      Nx.lookup_edge (add_edges interactions G) a b
      = Nx.lookup_edge (add_edges interactions G) b a.
Proof.
  induction interactions as [|i rest IH]; intros G Hsym; simpl; auto.
  apply IH. intros a b. rewrite !lookup_add_edge, Hsym.
  now rewrite orb_comm, (andb_comm (a =? _)%Z), (andb_comm (a =? _)%Z).
Qed.

(** An interaction list changes no lookup outside its own pairs. *)
Lemma add_edges_other interactions :
  forall G a b,
    ~ In (unordered_pair a b) (map interaction_pair interactions) ->
    Nx.lookup_edge (add_edges interactions G) a b = Nx.lookup_edge G a b.
Proof.
  induction interactions as [|i rest IH]; intros G a b Hnotin; simpl; auto.
  rewrite IH by (intros Hin; apply Hnotin; now right).
  rewrite lookup_add_edge, other_pair_test; auto.
  intros Heq. apply Hnotin. now left.
Qed.

Lemma keys_touch_kept G n m :
  In n (Dict.keys G) -> In n (Dict.keys (Nx.touch G m)).
Proof.
  intros Hin. unfold Nx.touch. destruct (Dict.get G m) as [e|] eqn:Hget; auto.
  rewrite set_fresh by exact Hget. unfold Dict.keys. rewrite map_app.
  apply in_or_app. now left.
Qed.

Lemma keys_add_edge_kept G u v d n :
  In n (Dict.keys G) -> In n (Dict.keys (Nx.add_edge G u v d)).
Proof.
  intros Hin. unfold Nx.add_edge. rewrite !keys_set_nbr.
  now apply keys_touch_kept, keys_touch_kept.
Qed.

Lemma add_edges_nodes_kept interactions :
  forall G n, In n (Dict.keys G) -> In n (Dict.keys (add_edges interactions G)).
Proof.
  induction interactions as [|i rest IH]; intros G n Hin; simpl; auto.
  apply IH. now apply keys_add_edge_kept.
Qed.

(** Both ids of every interaction are nodes of the result. *)
Lemma add_edges_nodes interactions :
  forall G i,
    In i interactions ->
    In (risk1_id i) (Dict.keys (add_edges interactions G))
    /\ In (risk2_id i) (Dict.keys (add_edges interactions G)).
Proof.
  induction interactions as [|j rest IH]; intros G i Hin; [destruct Hin|].
  simpl. destruct Hin as [->|Hin]; [|now apply IH].
  split; apply add_edges_nodes_kept; apply in_nodes_add_edge.
Qed.

End BuildFacts.

(** C3: for risks with distinct ids and interactions over distinct unordered
    pairs of those ids, never a risk with itself, the built graph has one node
    per risk and one edge per interaction, and the weight of every
    interaction's edge is its score whichever endpoint is asked first; weight
    lookup is symmetric for every pair of nodes. *)
Theorem build_risk_network_counts
    (risks : list Models.Risk) (interactions : list Models.RiskInteraction) :
  NoDup (map Models.id risks) ->
  NoDup (map interaction_pair interactions) ->
  Forall
    (fun i =>
       In (Models.risk1_id i) (map Models.id risks)
       /\ In (Models.risk2_id i) (map Models.id risks)
       /\ Models.risk1_id i <> Models.risk2_id i)
    interactions ->
  Nx.number_of_nodes (InteractionAnalysis.build_risk_network risks interactions)
  = length risks
  /\ Nx.number_of_edges (InteractionAnalysis.build_risk_network risks interactions)
     = length interactions
  /\ Forall
       (fun i =>
          Nx.edge_weight (InteractionAnalysis.build_risk_network risks interactions)
            (Models.risk1_id i) (Models.risk2_id i)
          = Some (Models.interaction_score i)
          /\ Nx.edge_weight (InteractionAnalysis.build_risk_network risks interactions)
               (Models.risk2_id i) (Models.risk1_id i)
             = Some (Models.interaction_score i))
       interactions
  /\ (forall a b,
         Nx.edge_weight (InteractionAnalysis.build_risk_network risks interactions) a b
         = Nx.edge_weight (InteractionAnalysis.build_risk_network risks interactions) b a).
Proof.
  intros Hrisks Hpairs Hrefs.
  unfold InteractionAnalysis.build_risk_network.
  set (G0 := fold_left (fun G risk => Nx.add_node G (Models.id risk) risk)
               risks Nx.empty).
  assert (Hedgeless : edgeless G0)
    by (apply edgeless_add_nodes; constructor).
  assert (Hkeys0 : Dict.keys G0 = map Models.id risks)
    by (unfold G0; now rewrite keys_add_nodes).
  destruct (add_edges_fresh interactions G0 Hpairs) as (Hkeys & Hends & _ & Hset).
  { rewrite Forall_forall in *. intros i Hi.
    destruct (Hrefs i Hi) as (Hu & Hv & Hne).
    rewrite Hkeys0. repeat split; auto; now apply edgeless_lookup. }
  repeat split.
  - unfold Nx.number_of_nodes.
    rewrite <- (length_map fst). change (map fst ?G) with (Dict.keys G).
    now rewrite Hkeys, Hkeys0, length_map.
  - unfold Nx.number_of_edges.
    rewrite Hends, (edgeless_edge_ends G0 Hedgeless).
    replace (0 + 2 * length interactions)
      with (length interactions * 2) by lia.
    now apply Nat.div_mul.
  - rewrite Forall_forall in *. intros i Hi.
    destruct (Hset i Hi) as [Huv Hvu].
    unfold Nx.edge_weight. now rewrite Huv, Hvu.
  - intros a b. unfold Nx.edge_weight. f_equal.
    apply add_edges_symmetric. intros x y.
    now rewrite !edgeless_lookup.
Qed.

Lemma build_risk_network_counts_witness :
  Nx.number_of_nodes Fixtures.sample_network = 4
  /\ Nx.number_of_edges Fixtures.sample_network = 5
  /\ Forall
       (fun i =>
          Nx.edge_weight Fixtures.sample_network
            (Models.risk1_id i) (Models.risk2_id i)
          = Some (Models.interaction_score i)
          /\ Nx.edge_weight Fixtures.sample_network
               (Models.risk2_id i) (Models.risk1_id i)
             = Some (Models.interaction_score i))
       Fixtures.sample_interactions
  /\ (forall a b,
         Nx.edge_weight Fixtures.sample_network a b
         = Nx.edge_weight Fixtures.sample_network b a).
Proof.
  apply (build_risk_network_counts
           Fixtures.sample_risks Fixtures.sample_interactions).
  - repeat constructor; simpl; intuition lia.
  - vm_compute. repeat constructor; simpl; intuition congruence.
  - repeat apply Forall_cons; try apply Forall_nil;
      (split; [|split]); vm_compute; lia.
Defined.

(** C5: the graph builder rejects nothing. An interaction that names an id
    outside the risk list adds that id as a node, and a pair that is given a
    second time takes the later score, with no further edge. *)
Lemma build_risk_network_accepts_bad_input :
  Nx.nodes
    (InteractionAnalysis.build_risk_network
       [Fixtures.risk 1 "Risk 1" "Physical" ""]
       [Fixtures.interaction 1 9 0.5 "Moderate"]) = [1; 9]%Z
  /\ Nx.edge_weight
       (InteractionAnalysis.build_risk_network Fixtures.sample_risks
          [Fixtures.interaction 1 2 0.3 "Moderate";
           Fixtures.interaction 2 1 0.9 "Strong"]) 1 2 = Some 0.9%float
  /\ Nx.number_of_edges
       (InteractionAnalysis.build_risk_network Fixtures.sample_risks
          [Fixtures.interaction 1 2 0.3 "Moderate";
           Fixtures.interaction 2 1 0.9 "Strong"]) = 1.
Proof. repeat split; vm_compute; reflexivity. Qed.

(** ** Loops that may raise *)

Section FoldFacts.

Context {A B : Type}.
Implicit Types (body : B -> A -> Exc B) (xs : list A) (init : B).

Lemma fold_left_raised body xs (e : exception) :
  fold_left (fun acc x => b <- acc ;; body b x) xs (inl e) = inl e.
Proof. induction xs as [|x xs IH]; simpl; auto. Qed.

Lemma foldM_cons body x xs init :
  foldM body (x :: xs) init = (b <- body init x ;; foldM body xs b).
Proof.
  unfold foldM. simpl. destruct (body init x) as [e|b]; simpl; auto.
  apply fold_left_raised.
Qed.

(** A loop whose body cannot raise under an invariant does not raise. *)
Lemma foldM_total (P : B -> Prop) body xs :
  forall init,
    P init ->
    (forall b x, In x xs -> P b -> exists b', body b x = inr b' /\ P b') ->
    exists r, foldM body xs init = inr r /\ P r.
Proof.
  induction xs as [|x xs IH]; intros init Hinit Hbody.
  - exists init. split; auto.
  - rewrite foldM_cons.
    destruct (Hbody init x (or_introl eq_refl) Hinit) as (b' & -> & Hb'). simpl.
    apply IH; auto. intros b y Hy. apply Hbody. now right.
Qed.

(** What the body keeps whenever it returns holds of what the loop returns. *)
Lemma foldM_returned (P : B -> Prop) body xs :
  forall init r,
    P init ->
    (forall b x b', In x xs -> P b -> body b x = inr b' -> P b') ->
    foldM body xs init = inr r -> P r.
Proof.
  induction xs as [|x xs IH]; intros init r Hinit Hbody.
  - intros [= <-]. exact Hinit.
  - rewrite foldM_cons. destruct (body init x) as [e|b'] eqn:Hb; simpl.
    + discriminate.
    + apply IH.
      * apply (Hbody init x b'); auto. now left.
      * intros b y b'' Hy. apply Hbody. now right.
Qed.

End FoldFacts.

(** ** Series *)

Lemma last_item_snoc {A} (xs : list A) (x : A) : last_item (xs ++ [x]) = inr x.
Proof. unfold last_item. now rewrite rev_unit. Qed.

Lemma last_item_nonempty {A} (xs : list A) (d : A) :
  xs <> [] -> last_item xs = inr (last xs d).
Proof.
  intros Hne. destruct (exists_last Hne) as (ys & y & ->).
  now rewrite last_item_snoc, last_last.
Qed.

Lemma last_item_returned {A} (xs : list A) (x d : A) :
  last_item xs = inr x -> xs <> [] /\ x = last xs d.
Proof.
  intros Hlast. destruct xs as [|y ys]; [discriminate|].
  split; [discriminate|].
  rewrite (last_item_nonempty (y :: ys) d) in Hlast by discriminate.
  now injection Hlast.
Qed.

Lemma repeat_snoc {A} (v : A) (m : nat) : repeat v m ++ [v] = repeat v (S m).
Proof. induction m as [|m IH]; simpl; auto. now rewrite IH. Qed.

Lemma held_from_last k v series :
  held_from k v series -> last series 0%float = v.
Proof.
  intros [m ->]. rewrite <- repeat_snoc, app_assoc. apply last_last.
Qed.

Lemma held_from_extended k v series :
  held_from k v series -> held_from k v (series ++ [last series 0%float]).
Proof.
  intros H. rewrite (held_from_last k v series H).
  destruct H as [m ->]. exists (S m).
  now rewrite <- app_assoc, repeat_snoc.
Qed.

Lemma held_from_length k v series : held_from k v series -> k < length series.
Proof. intros [m ->]. rewrite length_app, !repeat_length. lia. Qed.

(** The entries of a held series: zero before the activation entry, the
    activation value from there on. *)
Lemma held_from_entries k v series :
  held_from k v series ->
  (forall i, i < k -> nth_error series i = Some 0%float)
  /\ (forall i, k <= i < length series -> nth_error series i = Some v).
Proof.
  intros [m ->]. split; intros i Hi.
  - rewrite nth_error_app1 by (rewrite repeat_length; lia).
    apply nth_error_repeat. lia.
  - rewrite length_app, !repeat_length in Hi.
    rewrite nth_error_app2 by (rewrite repeat_length; lia).
    rewrite repeat_length. apply nth_error_repeat. lia.
Qed.

Lemma get_In {V} (d : Dict.t V) k v : Dict.get d k = Some v -> In (k, v) d.
Proof.
  induction d as [|[k0 v0] d IH]; simpl; [discriminate|].
  destruct (Z.eqb_spec k0 k) as [->|Hne].
  - intros [= ->]. now left.
  - intros H. right. auto.
Qed.

Lemma get_extended (cp : Progression) k :
  Dict.get (map extended cp) k
  = option_map (fun series => series ++ [last series 0%float]) (Dict.get cp k).
Proof.
  induction cp as [|[k0 v0] cp IH]; simpl; auto.
  destruct (Z.eqb_spec k0 k); auto.
Qed.


Lemma Forall_set {V} (P : Z * V -> Prop) (d : Dict.t V) k v :
  Forall P d -> P (k, v) -> Forall P (Dict.set d k v).
Proof.
  rewrite !Forall_forall. intros Hd Hkv x Hin.
  destruct (in_set d k v x Hin) as [Hx| ->]; auto.
Qed.

(** ** Cascade simulation *)

Section CascadeFacts.

Variable G : Nx.Graph.
Variable threshold : float.

Implicit Types (cp : Progression) (new : Dict.t float).

Lemma neighbor_influence_total cp node :
  In node (Nx.nodes G) ->
  Forall (fun x => snd x <> []) cp ->
  exists influence, InteractionAnalysis.neighbor_influence G cp node = inr influence.
Proof.
  intros Hnode Hseries. unfold InteractionAnalysis.neighbor_influence, Nx.neighbors.
  destruct (keys_get G node Hnode) as [e He]. rewrite He. simpl.
  destruct (foldM_total (fun _ => True)
              (fun total neighbor =>
                 activation <- last_item (Dict.get_default cp neighbor [0%float]) ;;
                 data <- Nx.edge G node neighbor ;;
                 ret (total + activation * Nx.weight data)%float)
              (Dict.keys (Nx.nbrs e)) 0%float I) as (r & Hr & _); eauto.
  intros total neighbor Hin _.
  assert (Hlast : exists a,
             last_item (Dict.get_default cp neighbor [0%float]) = inr a).
  { unfold Dict.get_default.
    destruct (Dict.get cp neighbor) as [series|] eqn:Hget.
    - exists (last series 0%float). apply last_item_nonempty.
      rewrite Forall_forall in Hseries.
      exact (Hseries _ (get_In _ _ _ Hget)).
    - now exists 0%float. }
  destruct Hlast as [a ->]. simpl.
  unfold Nx.edge, Dict.item. rewrite He. simpl.
  destruct (keys_get (Nx.nbrs e) neighbor Hin) as [data ->]. simpl.
  eauto.
Qed.

Lemma new_activations_total cp :
  Forall (fun x => snd x <> []) cp ->
  exists new, InteractionAnalysis.new_activations G cp threshold = inr new.
Proof.
  intros Hseries. unfold InteractionAnalysis.new_activations.
  destruct (foldM_total (fun _ => True)
              (fun new_activations node =>
                 if negb (Dict.contains cp node)
                 then
                   influence <- InteractionAnalysis.neighbor_influence G cp node ;;
                   if (threshold <? influence)%float
                   then ret (Dict.set new_activations node influence)
                   else ret new_activations
                 else ret new_activations)
              (Nx.nodes G) [] I) as (r & Hr & _); eauto.
  intros new node Hin _.
  destruct (negb (Dict.contains cp node)); [|eauto].
  destruct (neighbor_influence_total cp node Hin Hseries) as [influence ->].
  simpl. destruct (threshold <? influence)%float; eauto.
Qed.

(** A newly activated node was not tracked, and its activation exceeds the
    threshold. *)
Lemma new_activations_fresh cp new :
  InteractionAnalysis.new_activations G cp threshold = inr new ->
  Forall
    (fun x => Dict.contains cp (fst x) = false /\ (threshold <? snd x)%float = true)
    new.
Proof.
  unfold InteractionAnalysis.new_activations.
  apply foldM_returned; [constructor|].
  intros acc node acc' _ Hacc.
  destruct (Dict.contains cp node) eqn:Hc; simpl; [now intros [= <-]|].
  destruct (InteractionAnalysis.neighbor_influence G cp node) as [e|influence];
    simpl; [discriminate|].
  destruct (threshold <? influence)%float eqn:Hlt; intros [= <-]; auto.
  apply Forall_set; auto.
Qed.



(** Backfilling keeps every series held, and enters the new ones held. *)
Lemma backfill_held cp new filled :
  Forall (fun x => exists k v, held_from k v (snd x)) cp ->
  InteractionAnalysis.backfill cp new = inr filled ->
  Forall (fun x => exists k v, held_from k v (snd x)) filled.
Proof.
  intros Hheld. unfold InteractionAnalysis.backfill.
  apply foldM_returned; [auto|].
  intros b [node activation] b' _ Hb.
  destruct (next_iter (Dict.values b)) as [e|first]; simpl; [discriminate|].
  intros [= <-]. apply Forall_set; auto. simpl.
  exists (length first - 1), activation, 0. reflexivity.
Qed.

(** Backfilling leaves alone every node that is not newly activated. *)
Lemma backfill_get_other cp new filled (s : Z) :
  Forall (fun x => fst x <> s) new ->
  InteractionAnalysis.backfill cp new = inr filled ->
  Dict.get filled s = Dict.get cp s.
Proof.
  intros Hother. unfold InteractionAnalysis.backfill.
  revert cp. induction new as [|[node activation] new IH]; intros cp.
  - now intros [= <-].
  - rewrite foldM_cons.
    destruct (next_iter (Dict.values cp)) as [e|first]; simpl; [discriminate|].
    inversion Hother as [|x l Hx Hl]; subst. simpl in Hx.
    intros Hrest. rewrite (IH Hl _ Hrest). now apply get_set_other.
Qed.

Lemma extend_returned cp :
  forall done extended_cp,
    foldM
      (fun done '(node, progression) =>
         last <- last_item progression ;;
         ret (done ++ [(node, progression ++ [last])]))
      cp done = inr extended_cp ->
    extended_cp = done ++ map extended cp.
Proof.
  induction cp as [|[node series] cp IH]; intros done r.
  - intros [= <-]. simpl. now rewrite app_nil_r.
  - rewrite foldM_cons.
    destruct (last_item series) as [e|last] eqn:Hlast; simpl; [discriminate|].
    intros Hrest. rewrite (IH _ _ Hrest), <- app_assoc. simpl.
    destruct (last_item_returned series last 0%float Hlast) as [_ ->].
    reflexivity.
Qed.


Lemma extend_is_map cp extended_cp :
  InteractionAnalysis.extend cp = inr extended_cp -> extended_cp = map extended cp.
Proof. intros H. exact (extend_returned cp [] extended_cp H). Qed.





End CascadeFacts.

Section CascadeInvariants.

Variable G : Nx.Graph.
Variable threshold : float.

Implicit Types (cp : Progression).

Lemma seeding_entries (P : Z * list float -> Prop) seeds :
  (forall s, P (s, [1%float])) ->
  forall d : Progression,
    Forall P d ->
    Forall P (fold_left (fun d risk => Dict.set d risk [1%float]) seeds d).
Proof.
  intros HP. induction seeds as [|s seeds IH]; intros d Hd; simpl; auto.
  apply IH. apply Forall_set; auto.
Qed.


Lemma seeding_get seeds (s : Z) :
  forall d : Progression,
    In s seeds \/ Dict.get d s = Some [1%float] ->
    Dict.get (fold_left (fun d risk => Dict.set d risk [1%float]) seeds d) s
    = Some [1%float].
Proof.
  induction seeds as [|s0 seeds IH]; intros d Hd; simpl.
  - destruct Hd as [[]|Hd]. exact Hd.
  - apply IH. destruct (Z.eq_dec s0 s) as [->|Hne].
    + right. apply get_set_same.
    + destruct Hd as [[Heq|Hin]|Hd]; [contradiction|now left|].
      right. now rewrite get_set_other.
Qed.



Lemma initial_progression_held seeds :
  Forall (fun x => exists k v, held_from k v (snd x))
    (InteractionAnalysis.initial_progression seeds).
Proof.
  apply seeding_entries; auto.
  intros s. exists 0, 1%float, 0. reflexivity.
Qed.

Lemma cascade_step_held cp cp' :
  Forall (fun x => exists k v, held_from k v (snd x)) cp ->
  InteractionAnalysis.cascade_step G threshold cp = inr (Some cp') ->
  Forall (fun x => exists k v, held_from k v (snd x)) cp'.
Proof.
  intros Hheld. unfold InteractionAnalysis.cascade_step.
  destruct (InteractionAnalysis.new_activations G cp threshold) as [e|new];
    simpl; [discriminate|].
  destruct new as [|x new]; [discriminate|].
  destruct (InteractionAnalysis.backfill cp (x :: new)) as [e|filled] eqn:Hfilled;
    simpl; [discriminate|].
  destruct (InteractionAnalysis.extend filled) as [e|ext] eqn:Hext;
    simpl; [discriminate|].
  intros [= <-]. rewrite (extend_is_map filled ext Hext), Forall_map.
  generalize (backfill_held cp (x :: new) filled Hheld Hfilled).
  apply Forall_impl. intros [node series] (k & v & Hkv). simpl in *.
  exists k, v. now apply held_from_extended.
Qed.

Lemma cascade_step_seed cp cp' (s : Z) (n : nat) :
  Dict.get cp s = Some (repeat 1%float (S n)) ->
  InteractionAnalysis.cascade_step G threshold cp = inr (Some cp') ->
  Dict.get cp' s = Some (repeat 1%float (S (S n))).
Proof.
  intros Hseed. unfold InteractionAnalysis.cascade_step.
  destruct (InteractionAnalysis.new_activations G cp threshold) as [e|new] eqn:Hnew;
    simpl; [discriminate|].
  destruct new as [|x new]; [discriminate|].
  destruct (InteractionAnalysis.backfill cp (x :: new)) as [e|filled] eqn:Hfilled;
    simpl; [discriminate|].
  destruct (InteractionAnalysis.extend filled) as [e|ext] eqn:Hext;
    simpl; [discriminate|].
  intros [= <-]. rewrite (extend_is_map filled ext Hext), get_extended.
  rewrite (backfill_get_other cp (x :: new) filled s); auto.
  - rewrite Hseed. unfold option_map. cbv beta.
    rewrite (held_from_last 0 1%float (repeat 1%float (S n))).
    + now rewrite repeat_snoc.
    + now exists n.
  - generalize (new_activations_fresh G threshold cp (x :: new) Hnew).
    apply Forall_impl. intros [node v] [Hfresh _] Heq. simpl in *. subst node.
    unfold Dict.contains in Hfresh. now rewrite Hseed in Hfresh.
Qed.

Lemma cascade_loop_held (steps : nat) :
  forall cp r,
    Forall (fun x => exists k v, held_from k v (snd x)) cp ->
    InteractionAnalysis.cascade_loop G threshold steps cp = inr r ->
    Forall (fun x => exists k v, held_from k v (snd x)) r.
Proof.
  induction steps as [|steps IH]; intros cp r Hheld; simpl.
  - now intros [= <-].
  - destruct (InteractionAnalysis.cascade_step G threshold cp) as [e|[cp'|]] eqn:Hstep;
      simpl; [discriminate| |now intros [= <-]].
    apply IH. now apply cascade_step_held with (cp := cp).
Qed.

Lemma cascade_loop_seed (steps : nat) (s : Z) :
  forall cp r (n : nat),
    Dict.get cp s = Some (repeat 1%float (S n)) ->
    InteractionAnalysis.cascade_loop G threshold steps cp = inr r ->
    exists m, Dict.get r s = Some (repeat 1%float (S m)).
Proof.
  induction steps as [|steps IH]; intros cp r n Hseed; simpl.
  - intros [= <-]. eauto.
  - destruct (InteractionAnalysis.cascade_step G threshold cp) as [e|[cp'|]] eqn:Hstep;
      simpl; [discriminate| |intros [= <-]; eauto].
    apply (IH cp' r (S n)). now apply cascade_step_seed with (cp := cp).
Qed.

End CascadeInvariants.




Lemma analyze_risk_cascades_agree G initial_risks threshold max_steps :
  SystemicRiskAnalysis.analyze_risk_cascades G initial_risks threshold max_steps
  = InteractionAnalysis.analyze_risk_cascades G initial_risks threshold max_steps.
Proof.
  unfold InteractionAnalysis.analyze_risk_cascades,
    SystemicRiskAnalysis.analyze_risk_cascades.
  symmetry. apply cascade_loop_agree.
Qed.

(** C8: in a cascade state returned by either module's routine, the series of
    every seed starts with 1.0 (and stays there), and the series of every
    tracked node is held: zeros up to its activation entry, and from that
    entry on no entry differs from the activation value. *)
Theorem cascade_series_are_held
    (G : Nx.Graph) (initial_risks : list Z) (threshold : float) (max_steps : Z)
    (r : Progression) :
  InteractionAnalysis.analyze_risk_cascades G initial_risks threshold max_steps
  = inr r
  \/ SystemicRiskAnalysis.analyze_risk_cascades G initial_risks threshold max_steps
     = inr r ->
  (forall s,
      In s initial_risks ->
      exists series,
        Dict.get r s = Some series
        /\ nth_error series 0 = Some 1%float
        /\ held_from 0 1%float series)
  /\ Forall
       (fun x =>
          exists k v,
            held_from k v (snd x)
            /\ k < length (snd x)
            /\ (forall i, i < k -> nth_error (snd x) i = Some 0%float)
            /\ (forall i, k <= i < length (snd x) -> nth_error (snd x) i = Some v))
       r.
Proof.
  intros Hreturned.
  assert (Hrun : InteractionAnalysis.analyze_risk_cascades
                   G initial_risks threshold max_steps = inr r).
  { destruct Hreturned as [H|H]; [exact H|].
    exact (eq_trans
             (eq_sym (analyze_risk_cascades_agree G initial_risks threshold max_steps))
             H). }
  clear Hreturned. revert Hrun.
  unfold InteractionAnalysis.analyze_risk_cascades. intros Hrun. split.
  - intros s Hs.
    destruct (cascade_loop_seed G threshold (Z.to_nat max_steps) s
                (InteractionAnalysis.initial_progression initial_risks) r 0)
      as [m Hm]; auto.
    + apply seeding_get. now left.
    + exists (repeat 1%float (S m)). repeat split; auto. now exists m.
  - generalize (cascade_loop_held G threshold (Z.to_nat max_steps)
                  (InteractionAnalysis.initial_progression initial_risks) r
                  (initial_progression_held initial_risks) Hrun).
    apply Forall_impl. intros [node series] (k & v & Hkv). simpl in *.
    exists k, v. destruct (held_from_entries k v series Hkv) as [Hzero Hheld].
    repeat split; auto. now apply held_from_length with (v := v).
Qed.

Lemma cascade_series_are_held_witness :
  (forall s,
      In s [1]%Z ->
      exists series,
        Dict.get
          [(1%Z, [1; 1; 1]%float);
           (2%Z, [0.8; 0.8; 0.8]%float);
           (3%Z, [0; 0.8 * 0.9; 0.8 * 0.9]%float)] s = Some series
        /\ nth_error series 0 = Some 1%float
        /\ held_from 0 1%float series)
  /\ Forall
       (fun x =>
          exists k v,
            held_from k v (snd x)
            /\ k < length (snd x)
            /\ (forall i, i < k -> nth_error (snd x) i = Some 0%float)
            /\ (forall i, k <= i < length (snd x) -> nth_error (snd x) i = Some v))
       [(1%Z, [1; 1; 1]%float);
        (2%Z, [0.8; 0.8; 0.8]%float);
        (3%Z, [0; 0.8 * 0.9; 0.8 * 0.9]%float)].
Proof.
  apply (cascade_series_are_held Fixtures.chain_network [1]%Z 0.5 10).
  right. vm_compute. reflexivity.
Defined.

(** ** All pairs of risks *)

Section PairFacts.

Lemma unordered_pair_same_first (x y y' : Z) :
  unordered_pair x y = unordered_pair x y' -> y = y'.
Proof. intros H. apply unordered_pair_eq in H. lia. Qed.

Lemma length_pairs_in_order {A} (xs : list A) :
  2 * length (pairs_in_order xs) = length xs * (length xs - 1).
Proof.
  induction xs as [|x xs IH]; simpl; auto.
  rewrite length_app, length_map. nia.
Qed.

Lemma in_pairs_in_order {A} (xs : list A) (a b : A) :
  In (a, b) (pairs_in_order xs) -> In a xs /\ In b xs.
Proof.
  induction xs as [|x xs IH]; simpl; [tauto|].
  rewrite in_app_iff, in_map_iff.
  intros [(y & [= <- <-] & Hy)|Hin]; [tauto|].
  destruct (IH Hin). tauto.
Qed.

Lemma pairs_in_order_differ (xs : list Z) :
  NoDup xs -> Forall (fun p => fst p <> snd p) (pairs_in_order xs).
Proof.
  induction 1 as [|x xs Hx Hxs IH]; simpl; [constructor|].
  apply Forall_app. split; auto.
  apply Forall_forall. intros p Hp.
  apply in_map_iff in Hp. destruct Hp as (y & <- & Hy). simpl.
  intros ->. contradiction.
Qed.

Lemma pairs_in_order_distinct (xs : list Z) :
  NoDup xs ->
  NoDup (map (fun p => unordered_pair (fst p) (snd p)) (pairs_in_order xs)).
Proof.
  induction 1 as [|x xs Hx Hxs IH]; simpl; [constructor|].
  rewrite map_app, map_map. simpl. apply NoDup_app; auto.
  - apply NoDup_map_NoDup_ForallPairs; auto.
    intros y y' _ _. apply unordered_pair_same_first.
  - intros p Hleft Hright.
    apply in_map_iff in Hleft. destruct Hleft as (y & <- & Hy).
    apply in_map_iff in Hright. destruct Hright as ([a b] & Heq & Hab).
    simpl in Heq. apply in_pairs_in_order in Hab. destruct Hab as [Ha Hb].
    apply unordered_pair_eq in Heq.
    destruct Heq as [[-> _]|[_ ->]]; contradiction.
Qed.

End PairFacts.

Section ScoringFacts.

Import Models.

Variable INTERACTION_ANALYSIS_PROMPT :
  string -> string -> string -> string -> string -> string -> string.
Variable Service : Type.
Variable ChatCompletion_create : string -> Service -> Exc string * Service.

(** The chat service answers every call. *)
Hypothesis service_answers :
  forall prompt sv, exists text, fst (ChatCompletion_create prompt sv) = inr text.

Local Abbreviation score_pair :=
  (InteractionAnalysis.score_pair INTERACTION_ANALYSIS_PROMPT Service
     ChatCompletion_create).
Local Abbreviation inner_loop :=
  (InteractionAnalysis.inner_loop INTERACTION_ANALYSIS_PROMPT Service
     ChatCompletion_create).
Local Abbreviation outer_loop :=
  (InteractionAnalysis.outer_loop INTERACTION_ANALYSIS_PROMPT Service
     ChatCompletion_create).

Lemma score_pair_answers (risk1 risk2 : Risk) (sv : Service) :
  exists interaction sv',
    score_pair risk1 risk2 sv = (inr interaction, sv')
    /\ interaction_ends interaction = (id risk1, id risk2).
Proof.
  unfold InteractionAnalysis.score_pair.
  destruct (service_answers
              (INTERACTION_ANALYSIS_PROMPT
                 (description risk1) (category risk1) (subcategory risk1)
                 (description risk2) (category risk2) (subcategory risk2)) sv)
    as [text Htext].
  destruct (ChatCompletion_create _ sv) as [[e|answer] sv']; simpl in Htext;
    [discriminate|].
  eexists. eexists. split; reflexivity.
Qed.

Lemma inner_loop_answers (risk1 : Risk) (rest : list Risk) :
  forall interactions sv,
    exists added sv',
      inner_loop risk1 rest interactions sv = (inr (interactions ++ added), sv')
      /\ map interaction_ends added = map (pair (id risk1)) (map id rest).
Proof.
  induction rest as [|risk2 rest IH]; intros interactions sv; simpl.
  - exists [], sv. now rewrite app_nil_r.
  - destruct (score_pair_answers risk1 risk2 sv) as (i & sv1 & -> & Hends).
    destruct (IH (interactions ++ [i]) sv1) as (added & sv' & -> & Hadded).
    exists (i :: added), sv'. rewrite <- app_assoc. simpl.
    now rewrite Hends, Hadded.
Qed.

Lemma outer_loop_answers (risks : list Risk) :
  forall interactions sv,
    exists added sv',
      outer_loop risks interactions sv = (inr (interactions ++ added), sv')
      /\ map interaction_ends added = pairs_in_order (map id risks).
Proof.
  induction risks as [|risk1 rest IH]; intros interactions sv; simpl.
  - exists [], sv. now rewrite app_nil_r.
  - destruct (inner_loop_answers risk1 rest interactions sv)
      as (first & sv1 & -> & Hfirst).
    destruct (IH (interactions ++ first) sv1) as (others & sv' & -> & Hothers).
    exists (first ++ others), sv'. rewrite <- app_assoc.
    now rewrite map_app, Hfirst, Hothers.
Qed.

End ScoringFacts.

(** C7: when the chat service answers every call, the scoring of a list of
    [n] risks with distinct ids returns [n * (n - 1) / 2] interactions, one
    for each pair of positions [i < j] in the order of the loops, no two of
    them over the same unordered pair of ids and none between a risk and
    itself. *)
Theorem analyze_risk_interactions_all_pairs
    (INTERACTION_ANALYSIS_PROMPT :
       string -> string -> string -> string -> string -> string -> string)
    (Service : Type)
    (ChatCompletion_create : string -> Service -> Exc string * Service)
    (risks : list Models.Risk) (sv : Service) :
  (forall prompt sv, exists text, fst (ChatCompletion_create prompt sv) = inr text) ->
  NoDup (map Models.id risks) ->
  exists interactions sv',
    InteractionAnalysis.analyze_risk_interactions
      INTERACTION_ANALYSIS_PROMPT Service ChatCompletion_create risks sv
    = (inr interactions, sv')
    /\ length interactions = length risks * (length risks - 1) / 2
    /\ map interaction_ends interactions = pairs_in_order (map Models.id risks)
    /\ NoDup (map interaction_pair interactions)
    /\ Forall (fun i => Models.risk1_id i <> Models.risk2_id i) interactions.
Proof.
  intros Hanswers Hids. unfold InteractionAnalysis.analyze_risk_interactions.
  destruct (outer_loop_answers INTERACTION_ANALYSIS_PROMPT Service
              ChatCompletion_create Hanswers risks [] sv)
    as (interactions & sv' & Hrun & Hends).
  exists interactions, sv'. simpl in Hrun. split; [exact Hrun|].
  split; [|split; [exact Hends|split]].
  - pose proof (length_pairs_in_order (map Models.id risks)) as Hlen.
    rewrite <- Hends, !length_map in Hlen.
    rewrite <- Hlen, Nat.mul_comm. symmetry. now apply Nat.div_mul.
  - pose proof (pairs_in_order_distinct (map Models.id risks) Hids) as Hdistinct.
    rewrite <- Hends, map_map in Hdistinct. exact Hdistinct.
  - pose proof (pairs_in_order_differ (map Models.id risks) Hids) as Hdiffer.
    rewrite <- Hends, Forall_map in Hdiffer. exact Hdiffer.
Qed.

Lemma analyze_risk_interactions_all_pairs_witness :
  exists interactions sv',
    InteractionAnalysis.analyze_risk_interactions
      StandIns.plain_prompt nat (StandIns.canned_service "Score: 0.6")
      Fixtures.sample_risks 0
    = (inr interactions, sv')
    /\ length interactions = 4 * (4 - 1) / 2
    /\ map interaction_ends interactions
       = pairs_in_order (map Models.id Fixtures.sample_risks)
    /\ NoDup (map interaction_pair interactions)
    /\ Forall (fun i => Models.risk1_id i <> Models.risk2_id i) interactions.
Proof.
  apply (analyze_risk_interactions_all_pairs
           StandIns.plain_prompt nat (StandIns.canned_service "Score: 0.6")
           Fixtures.sample_risks 0).
  - intros prompt sv. now exists "Score: 0.6"%string.
  - repeat constructor; simpl; intuition lia.
Defined.

(** ** Further properties of the cascade simulation *)

Section CascadeHistory.

Variable G : Nx.Graph.
Variable threshold : float.

Implicit Types (cp : Progression).

(** One productive pass keeps every tracked series and appends its last
    value to it. *)
Lemma cascade_step_kept cp cp' (node : Z) (series : list float) :
  Dict.get cp node = Some series ->
  InteractionAnalysis.cascade_step G threshold cp = inr (Some cp') ->
  Dict.get cp' node = Some (series ++ [last series 0%float]).
Proof.
  intros Htracked. unfold InteractionAnalysis.cascade_step.
  destruct (InteractionAnalysis.new_activations G cp threshold) as [e|new] eqn:Hnew;
    simpl; [discriminate|].
  destruct new as [|x new]; [discriminate|].
  destruct (InteractionAnalysis.backfill cp (x :: new)) as [e|filled] eqn:Hfilled;
    simpl; [discriminate|].
  destruct (InteractionAnalysis.extend filled) as [e|ext] eqn:Hext;
    simpl; [discriminate|].
  intros [= <-]. rewrite (extend_is_map filled ext Hext), get_extended.
  rewrite (backfill_get_other cp (x :: new) filled node); auto.
  - now rewrite Htracked.
  - generalize (new_activations_fresh G threshold cp (x :: new) Hnew).
    apply Forall_impl. intros [n v] [Hfresh _] Heq. simpl in *. subst n.
    unfold Dict.contains in Hfresh. now rewrite Htracked in Hfresh.
Qed.

Lemma last_snoc_repeat (series : list float) (k : nat) :
  (series ++ [last series 0%float]) ++ repeat (last series 0%float) k
  = series ++ repeat (last series 0%float) (S k).
Proof. now rewrite <- app_assoc. Qed.

End CascadeHistory.

(** X1: the loop never rewrites history. Whatever state it starts from, a
    series that is tracked at the start is found in the returned state with
    copies of its last value appended, one for each productive pass, and
    nothing else changed. *)
Theorem cascade_loop_appends
    (G : Nx.Graph) (threshold : float) (steps : nat)
    (cp r : Progression) (node : Z) (series : list float) :
  InteractionAnalysis.cascade_loop G threshold steps cp = inr r ->
  Dict.get cp node = Some series ->
  exists k,
    k <= steps
    /\ productive_steps G threshold k cp r
    /\ Dict.get r node = Some (series ++ repeat (last series 0%float) k).
Proof.
  revert cp series. induction steps as [|steps IH]; intros cp series; simpl.
  - intros [= <-] Hget. exists 0. repeat split; auto.
    + constructor.
    + now rewrite app_nil_r.
  - destruct (InteractionAnalysis.cascade_step G threshold cp) as [e|[cp'|]] eqn:Hstep;
      simpl; [discriminate| |].
    + intros Hloop Hget.
      pose proof (cascade_step_kept G threshold cp cp' node series Hget Hstep) as Hkept.
      destruct (IH cp' _ Hloop Hkept) as (k & Hk & Hprod & Hr).
      exists (S k). repeat split.
      * lia.
      * econstructor; eauto.
      * rewrite Hr, last_last. f_equal. apply last_snoc_repeat.
    + intros [= <-] Hget. exists 0. repeat split.
      * lia.
      * constructor.
      * simpl. now rewrite app_nil_r.
Qed.

Lemma cascade_loop_appends_witness :
  exists k,
    k <= 5
    /\ productive_steps Fixtures.chain_network 0.5 k
         [(1%Z, [1; 1]%float); (2%Z, [0.8; 0.8]%float)]
         [(1%Z, [1; 1; 1]%float); (2%Z, [0.8; 0.8; 0.8]%float);
          (3%Z, [0; 0.8 * 0.9; 0.8 * 0.9]%float)]
    /\ Dict.get
         [(1%Z, [1; 1; 1]%float); (2%Z, [0.8; 0.8; 0.8]%float);
          (3%Z, [0; 0.8 * 0.9; 0.8 * 0.9]%float)] 2
       = Some ([0.8; 0.8]%float ++ repeat (last [0.8; 0.8]%float 0%float) k).
Proof.
  apply (cascade_loop_appends Fixtures.chain_network 0.5 5
           [(1%Z, [1; 1]%float); (2%Z, [0.8; 0.8]%float)]).
  - vm_compute. reflexivity.
  - vm_compute. reflexivity.
Defined.

(** X2: without seeds the simulation tracks nothing. It returns the empty
    mapping when the budget is spent at once or no node crosses the
    threshold, and raises [StopIteration] when some node does, because there
    is no first series to take the backfill length from. *)
Theorem cascade_without_seeds (G : Nx.Graph) (threshold : float) (max_steps : Z) :
  exists new,
    InteractionAnalysis.new_activations G [] threshold = inr new
    /\ InteractionAnalysis.analyze_risk_cascades G [] threshold max_steps
       = match Z.to_nat max_steps, new with
         | O, _ => inr []
         | S _, [] => inr []
         | S _, _ :: _ => inl StopIteration
         end.
Proof.
  destruct (new_activations_total G threshold [] (Forall_nil _)) as [new Hnew].
  exists new. split; [exact Hnew|].
  unfold InteractionAnalysis.analyze_risk_cascades,
    InteractionAnalysis.initial_progression. simpl fold_left.
  destruct (Z.to_nat max_steps) as [|steps]; [reflexivity|].
  simpl. unfold InteractionAnalysis.cascade_step. rewrite Hnew. simpl.
  destruct new as [|[node activation] new]; [reflexivity|].
  unfold InteractionAnalysis.backfill. rewrite foldM_cons. reflexivity.
Qed.

Section CascadeActivations.

Variable G : Nx.Graph.
Variable threshold : float.
Variable initial_risks : list Z.

Implicit Types (cp : Progression).

Local Abbreviation accounted := (accounted_for G threshold initial_risks).

Lemma new_activations_nodes cp new :
  InteractionAnalysis.new_activations G cp threshold = inr new ->
  Forall
    (fun x => In (fst x) (Nx.nodes G) /\ (threshold <? snd x)%float = true) new.
Proof.
  unfold InteractionAnalysis.new_activations.
  apply foldM_returned; [constructor|].
  intros acc node acc' Hnode Hacc.
  destruct (Dict.contains cp node); simpl; [now intros [= <-]|].
  destruct (InteractionAnalysis.neighbor_influence G cp node) as [e|influence];
    simpl; [discriminate|].
  destruct (threshold <? influence)%float eqn:Hlt; intros [= <-]; auto.
  apply Forall_set; auto.
Qed.

Lemma backfill_accounted cp new filled :
  Forall
    (fun x => In (fst x) (Nx.nodes G) /\ (threshold <? snd x)%float = true) new ->
  Forall accounted cp ->
  InteractionAnalysis.backfill cp new = inr filled ->
  Forall accounted filled.
Proof.
  intros Hnew Hcp. unfold InteractionAnalysis.backfill.
  apply foldM_returned; [auto|].
  intros b [node activation] b' Hin Hb.
  destruct (next_iter (Dict.values b)) as [e|first]; simpl; [discriminate|].
  intros [= <-]. apply Forall_set; auto.
  rewrite Forall_forall in Hnew. destruct (Hnew _ Hin) as [Hnode Hlt].
  right. split; auto. simpl.
  exists (length first - 1), activation. split; auto. now exists 0.
Qed.

Lemma cascade_step_accounted cp cp' :
  Forall accounted cp ->
  InteractionAnalysis.cascade_step G threshold cp = inr (Some cp') ->
  Forall accounted cp'.
Proof.
  intros Hcp. unfold InteractionAnalysis.cascade_step.
  destruct (InteractionAnalysis.new_activations G cp threshold) as [e|new] eqn:Hnew;
    simpl; [discriminate|].
  destruct new as [|x new]; [discriminate|].
  destruct (InteractionAnalysis.backfill cp (x :: new)) as [e|filled] eqn:Hfilled;
    simpl; [discriminate|].
  destruct (InteractionAnalysis.extend filled) as [e|ext] eqn:Hext;
    simpl; [discriminate|].
  intros [= <-]. rewrite (extend_is_map filled ext Hext), Forall_map.
  generalize (backfill_accounted cp (x :: new) filled
                (new_activations_nodes cp (x :: new) Hnew) Hcp Hfilled).
  apply Forall_impl. intros [node series] [Hseed|(Hnode & k & v & Hheld & Hlt)].
  - now left.
  - right. split; auto. exists k, v. split; auto.
    now apply held_from_extended.
Qed.

Lemma cascade_loop_accounted (steps : nat) :
  forall cp r,
    Forall accounted cp ->
    InteractionAnalysis.cascade_loop G threshold steps cp = inr r ->
    Forall accounted r.
Proof.
  induction steps as [|steps IH]; intros cp r Hcp; simpl.
  - now intros [= <-].
  - destruct (InteractionAnalysis.cascade_step G threshold cp) as [e|[cp'|]] eqn:Hstep;
      simpl; [discriminate| |now intros [= <-]].
    apply IH. now apply cascade_step_accounted with (cp := cp).
Qed.

Lemma seeding_keys (seeds : list Z) :
  forall d : Progression,
    incl seeds initial_risks ->
    Forall accounted d ->
    Forall accounted (fold_left (fun d risk => Dict.set d risk [1%float]) seeds d).
Proof.
  induction seeds as [|s seeds IH]; intros d Hincl Hd; simpl; auto.
  apply IH.
  - intros x Hx. apply Hincl. now right.
  - apply Forall_set; auto. left. apply Hincl. now left.
Qed.

Lemma cascade_run_accounted (max_steps : Z) (r : Progression) :
  InteractionAnalysis.analyze_risk_cascades G initial_risks threshold max_steps
  = inr r ->
  Forall accounted r.
Proof.
  unfold InteractionAnalysis.analyze_risk_cascades. apply cascade_loop_accounted.
  apply seeding_keys; [apply incl_refl|constructor].
Qed.

End CascadeActivations.

(** X3: a node is tracked only for a reason. Every node of a returned
    cascade state that is not a seed is a node of the graph, and the value
    its series holds from its activation entry on exceeds the threshold. *)
Theorem cascade_activations_exceed_threshold
    (G : Nx.Graph) (initial_risks : list Z) (threshold : float) (max_steps : Z)
    (r : Progression) (node : Z) (series : list float) :
  InteractionAnalysis.analyze_risk_cascades G initial_risks threshold max_steps
  = inr r ->
  In (node, series) r ->
  ~ In node initial_risks ->
  In node (Nx.nodes G)
  /\ exists k v, held_from k v series /\ (threshold <? v)%float = true.
Proof.
  intros Hrun Hin Hnotseed.
  pose proof (cascade_run_accounted G threshold initial_risks max_steps r Hrun) as Hall.
  rewrite Forall_forall in Hall.
  destruct (Hall (node, series) Hin) as [Hseed|Hlate]; [contradiction|exact Hlate].
Qed.

Lemma cascade_activations_exceed_threshold_witness :
  In 3%Z (Nx.nodes Fixtures.chain_network)
  /\ exists k v,
      held_from k v [0; 0.8 * 0.9; 0.8 * 0.9]%float /\ (0.5 <? v)%float = true.
Proof.
  apply (cascade_activations_exceed_threshold
           Fixtures.chain_network [1]%Z 0.5 10
           [(1%Z, [1; 1; 1]%float); (2%Z, [0.8; 0.8; 0.8]%float);
            (3%Z, [0; 0.8 * 0.9; 0.8 * 0.9]%float)]).
  - vm_compute. reflexivity.
  - right. right. left. reflexivity.
  - intros [H|[]]. discriminate H.
Defined.

(** ** Further properties of graph construction *)

Section NodeFacts.

Lemma in_keys_set {V} (d : Dict.t V) (k n : Z) (v : V) :
  In n (Dict.keys (Dict.set d k v)) <-> n = k \/ In n (Dict.keys d).
Proof.
  destruct (Dict.get d k) as [v'|] eqn:Hget.
  - rewrite (keys_set_present d k v v' Hget).
    pose proof (get_Some_keys d k v' Hget). split; [tauto|].
    intros [->|Hin]; auto.
  - rewrite (set_fresh d k v Hget). unfold Dict.keys.
    rewrite map_app, in_app_iff. simpl. intuition auto.
Qed.

Lemma NoDup_keys_set {V} (d : Dict.t V) (k : Z) (v : V) :
  NoDup (Dict.keys d) -> NoDup (Dict.keys (Dict.set d k v)).
Proof.
  intros Hd. destruct (Dict.get d k) as [v'|] eqn:Hget.
  - now rewrite (keys_set_present d k v v' Hget).
  - rewrite (set_fresh d k v Hget). unfold Dict.keys. rewrite map_app. simpl.
    apply NoDup_app; auto.
    + repeat constructor. intros [].
    + intros n Hn [<-|[]]. apply get_None_keys in Hget. contradiction.
Qed.

Lemma in_keys_add_node (G : Nx.Graph) (m n : Z) (r : Models.Risk) :
  In n (Dict.keys (Nx.add_node G m r)) <-> n = m \/ In n (Dict.keys G).
Proof.
  unfold Nx.add_node. destruct (Dict.get G m); apply in_keys_set.
Qed.

Lemma NoDup_keys_add_node (G : Nx.Graph) (m : Z) (r : Models.Risk) :
  NoDup (Dict.keys G) -> NoDup (Dict.keys (Nx.add_node G m r)).
Proof.
  unfold Nx.add_node. destruct (Dict.get G m); apply NoDup_keys_set.
Qed.

Lemma in_keys_touch (G : Nx.Graph) (m n : Z) :
  In n (Dict.keys (Nx.touch G m)) <-> n = m \/ In n (Dict.keys G).
Proof.
  unfold Nx.touch. destruct (Dict.get G m) as [e|] eqn:Hget.
  - pose proof (get_Some_keys G m e Hget). split; [tauto|].
    intros [->|Hin]; auto.
  - apply in_keys_set.
Qed.

Lemma NoDup_keys_touch (G : Nx.Graph) (m : Z) :
  NoDup (Dict.keys G) -> NoDup (Dict.keys (Nx.touch G m)).
Proof.
  unfold Nx.touch. destruct (Dict.get G m); auto. apply NoDup_keys_set.
Qed.

Lemma in_keys_add_edge (G : Nx.Graph) (u v n : Z) (d : Nx.EdgeData) :
  In n (Dict.keys (Nx.add_edge G u v d)) <-> n = u \/ n = v \/ In n (Dict.keys G).
Proof.
  unfold Nx.add_edge. rewrite !keys_set_nbr, !in_keys_touch. tauto.
Qed.

Lemma NoDup_keys_add_edge (G : Nx.Graph) (u v : Z) (d : Nx.EdgeData) :
  NoDup (Dict.keys G) -> NoDup (Dict.keys (Nx.add_edge G u v d)).
Proof.
  intros HG. unfold Nx.add_edge. rewrite !keys_set_nbr.
  now apply NoDup_keys_touch, NoDup_keys_touch.
Qed.

Local Abbreviation add_nodes :=
  (fold_left (fun G risk => Nx.add_node G (Models.id risk) risk)).
Local Abbreviation add_edges :=
  (fold_left
     (fun G interaction =>
        Nx.add_edge G (Models.risk1_id interaction) (Models.risk2_id interaction)
          {| Nx.weight := Models.interaction_score interaction;
             Nx.type := Models.interaction_type interaction |})).

Lemma NoDup_keys_add_nodes (risks : list Models.Risk) :
  forall G, NoDup (Dict.keys G) -> NoDup (Dict.keys (add_nodes risks G)).
Proof.
  induction risks as [|r risks IH]; intros G HG; simpl; auto.
  apply IH. now apply NoDup_keys_add_node.
Qed.

Lemma in_keys_add_nodes (risks : list Models.Risk) :
  forall G n,
    In n (Dict.keys (add_nodes risks G))
    <-> In n (Dict.keys G) \/ In n (map Models.id risks).
Proof.
  induction risks as [|r risks IH]; intros G n; simpl.
  - tauto.
  - rewrite IH, in_keys_add_node. split; intros H; intuition auto.
Qed.

Lemma NoDup_keys_add_edges (interactions : list Models.RiskInteraction) :
  forall G, NoDup (Dict.keys G) -> NoDup (Dict.keys (add_edges interactions G)).
Proof.
  induction interactions as [|i rest IH]; intros G HG; simpl; auto.
  apply IH. now apply NoDup_keys_add_edge.
Qed.

Lemma in_keys_add_edges (interactions : list Models.RiskInteraction) :
  forall G n,
    In n (Dict.keys (add_edges interactions G))
    <-> In n (Dict.keys G)
        \/ exists i,
            In i interactions
            /\ (n = Models.risk1_id i \/ n = Models.risk2_id i).
Proof.
  induction interactions as [|i rest IH]; intros G n; simpl.
  - split; auto. intros [H|(i & [] & _)]. exact H.
  - rewrite IH, in_keys_add_edge. split.
    + intros [[->|[->|H]]|(k & Hk & Hn)]; eauto 7.
    + intros [H|(k & [<-|Hk] & Hn)]; eauto 7. left. tauto.
Qed.

End NodeFacts.

(** X4: the node set of a built graph, for every input. No node is listed
    twice, and the nodes are the ids of the risks together with both ids of
    every interaction, whether or not a risk carries them. *)
Theorem build_risk_network_nodes
    (risks : list Models.Risk) (interactions : list Models.RiskInteraction) :
  NoDup (Nx.nodes (InteractionAnalysis.build_risk_network risks interactions))
  /\ forall n,
      In n (Nx.nodes (InteractionAnalysis.build_risk_network risks interactions))
      <-> In n (map Models.id risks)
          \/ exists i,
              In i interactions
              /\ (n = Models.risk1_id i \/ n = Models.risk2_id i).
Proof.
  unfold InteractionAnalysis.build_risk_network, Nx.nodes. split.
  - apply NoDup_keys_add_edges, NoDup_keys_add_nodes. constructor.
  - intros n. rewrite in_keys_add_edges, in_keys_add_nodes. simpl. tauto.
Qed.

Section EdgeFacts.

Import Models.

Local Abbreviation add_edges :=
  (fold_left
     (fun G interaction =>
        Nx.add_edge G (risk1_id interaction) (risk2_id interaction)
          {| Nx.weight := interaction_score interaction;
             Nx.type := interaction_type interaction |})).

Implicit Types (G : Nx.Graph) (a b u v : Z).

Lemma has_edge_lookup G a b :
  Nx.has_edge G a b
  = match Nx.lookup_edge G a b with Some _ => true | None => false end.
Proof.
  unfold Nx.has_edge, Nx.lookup_edge, Dict.contains.
  destruct (Dict.get G a); reflexivity.
Qed.

Lemma has_edge_add_edge G u v (d : Nx.EdgeData) a b :
  Nx.has_edge (Nx.add_edge G u v d) a b
  = ((a =? u)%Z && (b =? v)%Z) || ((a =? v)%Z && (b =? u)%Z) || Nx.has_edge G a b.
Proof.
  rewrite !has_edge_lookup, lookup_add_edge.
  destruct (((a =? u)%Z && (b =? v)%Z) || ((a =? v)%Z && (b =? u)%Z)); reflexivity.
Qed.

Lemma has_edge_add_edges interactions :
  forall G a b,
    Nx.has_edge (add_edges interactions G) a b
    = existsb (joins a b) interactions || Nx.has_edge G a b.
Proof.
  induction interactions as [|i rest IH]; intros G a b; simpl; auto.
  rewrite IH, has_edge_add_edge. fold (joins a b i).
  destruct (joins a b i), (existsb (joins a b) rest), (Nx.has_edge G a b);
    reflexivity.
Qed.

Lemma joins_pair a b (i : RiskInteraction) :
  joins a b i = true <-> unordered_pair a b = interaction_pair i.
Proof.
  unfold joins, interaction_pair. rewrite unordered_pair_eq.
  rewrite orb_true_iff, !andb_true_iff, !Z.eqb_eq. tauto.
Qed.

Lemma joined_in_pairs a b interactions :
  existsb (joins a b) interactions = true
  <-> In (unordered_pair a b) (map interaction_pair interactions).
Proof.
  rewrite existsb_exists, in_map_iff. split.
  - intros (i & Hi & Hj). exists i. split; auto. symmetry. now apply joins_pair.
  - intros (i & Hp & Hi). exists i. split; auto. now apply joins_pair.
Qed.

Lemma edgeless_has_edge G a b : edgeless G -> Nx.has_edge G a b = false.
Proof. intros HG. now rewrite has_edge_lookup, edgeless_lookup. Qed.

Lemma edge_ends_app G G' : Nx.edge_ends (G ++ G') = Nx.edge_ends G + Nx.edge_ends G'.
Proof.
  unfold Nx.edge_ends. induction G as [|[n e] G IH]; simpl; auto.
  rewrite IH. lia.
Qed.

Lemma edge_ends_touch G u : Nx.edge_ends (Nx.touch G u) = Nx.edge_ends G.
Proof.
  unfold Nx.touch. destruct (Dict.get G u) as [e|] eqn:Hget; auto.
  rewrite set_fresh by exact Hget. rewrite edge_ends_app. simpl.
  unfold Nx.ends_at. simpl. lia.
Qed.

Lemma contains_set_present {V} (d : Dict.t V) (k n : Z) (x x' : V) :
  Dict.get d k = Some x' ->
  Dict.contains (Dict.set d k x) n = Dict.contains d n.
Proof.
  intros Hk. unfold Dict.contains. destruct (Z.eq_dec k n) as [->|Hne].
  - now rewrite get_set_same, Hk.
  - now rewrite get_set_other.
Qed.

(** Writing the data of an edge that is there changes no count. *)
Lemma edge_ends_set_nbr_present G u v (d d0 : Nx.EdgeData) :
  Nx.lookup_edge G u v = Some d0 ->
  Nx.edge_ends (Nx.set_nbr G u v d) = Nx.edge_ends G.
Proof.
  unfold Nx.lookup_edge, Nx.set_nbr.
  destruct (Dict.get G u) as [e|] eqn:He; [|discriminate]. intros Hv.
  pose proof (edge_ends_set G u e
                {| Nx.attr := Nx.attr e; Nx.nbrs := Dict.set (Nx.nbrs e) v d |} He)
    as Hsum.
  unfold Nx.ends_at in Hsum; simpl in Hsum.
  rewrite (length_set_present _ _ _ _ Hv) in Hsum.
  rewrite (contains_set_present _ _ _ _ _ Hv) in Hsum. lia.
Qed.

(** A new loop at a node counts twice at that node. *)
Lemma edge_ends_set_nbr_loop G u (d : Nx.EdgeData) :
  In u (Dict.keys G) ->
  Nx.lookup_edge G u u = None ->
  Nx.edge_ends (Nx.set_nbr G u u d) = Nx.edge_ends G + 2.
Proof.
  intros Hin. unfold Nx.lookup_edge, Nx.set_nbr.
  destruct (keys_get G u Hin) as [e He]. rewrite He. intros Hfresh.
  pose proof (edge_ends_set G u e
                {| Nx.attr := Nx.attr e; Nx.nbrs := Dict.set (Nx.nbrs e) u d |} He)
    as Hsum.
  unfold Nx.ends_at in Hsum; simpl in Hsum.
  rewrite (length_set_fresh _ _ _ Hfresh) in Hsum.
  unfold Dict.contains in Hsum. rewrite get_set_same, Hfresh in Hsum. lia.
Qed.

(** An edge adds two ends when it is new and none when it is there, in a
    graph whose lookups agree in both directions. *)
Lemma edge_ends_add_edge G u v (d : Nx.EdgeData) :
  Nx.lookup_edge G u v = Nx.lookup_edge G v u ->
  Nx.edge_ends (Nx.add_edge G u v d)
  = Nx.edge_ends G + (if Nx.has_edge G u v then 0 else 2).
Proof.
  intros Hsym. unfold Nx.add_edge.
  set (G2 := Nx.touch (Nx.touch G u) v).
  assert (Hends : Nx.edge_ends G2 = Nx.edge_ends G)
    by (unfold G2; now rewrite !edge_ends_touch).
  assert (Hlook : forall a b, Nx.lookup_edge G2 a b = Nx.lookup_edge G a b)
    by (intros a b; unfold G2; now rewrite !lookup_touch).
  assert (Hu : In u (Dict.keys G2))
    by (unfold G2; rewrite !in_keys_touch; auto).
  assert (Hv : In v (Dict.keys G2))
    by (unfold G2; rewrite in_keys_touch; auto).
  destruct (keys_get G2 u Hu) as [eu Heu].
  rewrite has_edge_lookup, <- Hends, <- (Hlook u v).
  pose proof (lookup_set_nbr G2 u v d v u eu Heu) as Hback.
  destruct (Nx.lookup_edge G2 u v) as [d0|] eqn:Huv.
  - rewrite (edge_ends_set_nbr_present _ v u d
               (if (v =? u)%Z && (u =? v)%Z then d else d0)).
    + rewrite (edge_ends_set_nbr_present G2 u v d d0 Huv). lia.
    + rewrite Hback. destruct ((v =? u)%Z && (u =? v)%Z); auto.
      now rewrite Hlook, <- Hsym, <- Hlook.
  - destruct (Z.eq_dec u v) as [<-|Hne].
    + rewrite (edge_ends_set_nbr_present _ u u d d).
      * now apply edge_ends_set_nbr_loop.
      * rewrite Hback. now rewrite Z.eqb_refl.
    + rewrite edge_ends_set_nbr_fresh.
      * rewrite edge_ends_set_nbr_fresh; auto. lia.
      * congruence.
      * now rewrite keys_set_nbr.
      * rewrite Hback. destruct (Z.eqb_spec v u); [congruence|].
        simpl. now rewrite Hlook, <- Hsym, <- Hlook.
Qed.

Lemma distinct_pairs_length_eq (xs ys : list RiskInteraction) :
  (forall p, In p (map interaction_pair xs) <-> In p (map interaction_pair ys)) ->
  length (distinct_pairs xs) = length (distinct_pairs ys).
Proof.
  intros Hsame. unfold distinct_pairs. apply Nat.le_antisymm;
    apply NoDup_incl_length; try apply NoDup_nodup;
    intros p Hp; apply nodup_In; apply nodup_In in Hp; now apply Hsame.
Qed.

Lemma distinct_pairs_snoc (xs : list RiskInteraction) (i : RiskInteraction) :
  length (distinct_pairs (xs ++ [i]))
  = length (distinct_pairs xs)
    + (if existsb (joins (risk1_id i) (risk2_id i)) xs then 0 else 1).
Proof.
  destruct (existsb (joins (risk1_id i) (risk2_id i)) xs) eqn:Hseen.
  - rewrite Nat.add_0_r. apply distinct_pairs_length_eq.
    intros p. rewrite map_app, in_app_iff. simpl. split; [|tauto].
    intros [H|[<-|[]]]; auto. now apply joined_in_pairs.
  - rewrite (distinct_pairs_length_eq (xs ++ [i]) (i :: xs)).
    + unfold distinct_pairs. simpl.
      destruct (in_dec _ (interaction_pair i) (map interaction_pair xs)) as [Hin|Hnot].
      * apply joined_in_pairs in Hin. congruence.
      * simpl. lia.
    + intros p. rewrite map_app, in_app_iff. simpl. tauto.
Qed.

Lemma edge_ends_add_edges interactions :
  forall G,
    edgeless G ->
    Nx.edge_ends (add_edges interactions G)
    = 2 * length (distinct_pairs interactions).
Proof.
  induction interactions as [|i rest IH] using rev_ind; intros G HG.
  - simpl. now apply edgeless_edge_ends.
  - rewrite fold_left_app. simpl fold_left.
    rewrite edge_ends_add_edge.
    + rewrite has_edge_add_edges, (edgeless_has_edge G _ _ HG), orb_false_r.
      rewrite IH by exact HG. rewrite distinct_pairs_snoc.
      destruct (existsb (joins (risk1_id i) (risk2_id i)) rest); lia.
    + apply add_edges_symmetric. intros x y. now rewrite !edgeless_lookup.
Qed.

End EdgeFacts.

(** C5, as the code has it: the builder accepts every input. Both ids of
    every interaction are nodes of the built graph, whether or not a risk
    carries them; for every unordered pair the last interaction given over it
    decides the weight of the edge, found under either order of the two ids;
    and the graph has one edge for each different unordered pair, so that an
    interaction over a pair given before adds no edge. *)
Theorem build_risk_network_last_interaction_wins
    (risks : list Models.Risk) (interactions : list Models.RiskInteraction) :
  (forall i,
      In i interactions ->
      In (Models.risk1_id i)
         (Nx.nodes (InteractionAnalysis.build_risk_network risks interactions))
      /\ In (Models.risk2_id i)
           (Nx.nodes (InteractionAnalysis.build_risk_network risks interactions)))
  /\ (forall before i after,
         interactions = before ++ i :: after ->
         ~ In (interaction_pair i) (map interaction_pair after) ->
         Nx.edge_weight (InteractionAnalysis.build_risk_network risks interactions)
           (Models.risk1_id i) (Models.risk2_id i)
         = Some (Models.interaction_score i)
         /\ Nx.edge_weight (InteractionAnalysis.build_risk_network risks interactions)
              (Models.risk2_id i) (Models.risk1_id i)
            = Some (Models.interaction_score i))
  /\ Nx.number_of_edges (InteractionAnalysis.build_risk_network risks interactions)
     = length (distinct_pairs interactions)
  /\ (forall i,
         In (interaction_pair i) (map interaction_pair interactions) ->
         Nx.number_of_edges
           (InteractionAnalysis.build_risk_network risks (interactions ++ [i]))
         = Nx.number_of_edges
             (InteractionAnalysis.build_risk_network risks interactions)).
Proof.
  assert (Hcount : forall given,
             Nx.number_of_edges (InteractionAnalysis.build_risk_network risks given)
             = length (distinct_pairs given)).
  { intros given. unfold InteractionAnalysis.build_risk_network, Nx.number_of_edges.
    rewrite edge_ends_add_edges by (apply edgeless_add_nodes; constructor).
    rewrite Nat.mul_comm. now apply Nat.div_mul. }
  repeat split.
  - now apply add_edges_nodes.
  - now apply add_edges_nodes.
  - subst interactions. unfold InteractionAnalysis.build_risk_network.
    rewrite fold_left_app. simpl fold_left.
    unfold Nx.edge_weight. rewrite !add_edges_other; auto.
    rewrite !lookup_add_edge. now rewrite same_pair_test.
  - subst interactions. unfold InteractionAnalysis.build_risk_network.
    rewrite fold_left_app. simpl fold_left.
    unfold Nx.edge_weight. rewrite !add_edges_other.
    + rewrite !lookup_add_edge. now rewrite swapped_pair_test.
    + replace (unordered_pair (Models.risk2_id i) (Models.risk1_id i))
        with (interaction_pair i); auto.
      apply unordered_pair_eq. now right.
  - apply Hcount.
  - intros i Hseen. rewrite !Hcount, distinct_pairs_snoc.
    apply joined_in_pairs in Hseen. rewrite Hseen. lia.
Qed.

Lemma build_risk_network_last_interaction_wins_witness :
  (Nx.edge_weight
     (InteractionAnalysis.build_risk_network Fixtures.sample_risks
        [Fixtures.interaction 1 2 0.3 "Moderate";
         Fixtures.interaction 3 9 0.5 "Moderate";
         Fixtures.interaction 2 1 0.9 "Strong"]) 1 2 = Some 0.9%float
   /\ Nx.edge_weight
        (InteractionAnalysis.build_risk_network Fixtures.sample_risks
           [Fixtures.interaction 1 2 0.3 "Moderate";
            Fixtures.interaction 3 9 0.5 "Moderate";
            Fixtures.interaction 2 1 0.9 "Strong"]) 2 1 = Some 0.9%float)
  /\ Nx.number_of_edges
       (InteractionAnalysis.build_risk_network Fixtures.sample_risks
          ([Fixtures.interaction 1 2 0.3 "Moderate";
            Fixtures.interaction 3 9 0.5 "Moderate"]
           ++ [Fixtures.interaction 2 1 0.9 "Strong"]))
     = Nx.number_of_edges
         (InteractionAnalysis.build_risk_network Fixtures.sample_risks
            [Fixtures.interaction 1 2 0.3 "Moderate";
             Fixtures.interaction 3 9 0.5 "Moderate"]).
Proof.
  split.
  - destruct (build_risk_network_last_interaction_wins
                Fixtures.sample_risks
                [Fixtures.interaction 1 2 0.3 "Moderate";
                 Fixtures.interaction 3 9 0.5 "Moderate";
                 Fixtures.interaction 2 1 0.9 "Strong"])
      as (_ & Hlast & _).
    apply (Hlast [Fixtures.interaction 1 2 0.3 "Moderate";
                  Fixtures.interaction 3 9 0.5 "Moderate"]
             (Fixtures.interaction 2 1 0.9 "Strong") []).
    + reflexivity.
    + intros [].
  - destruct (build_risk_network_last_interaction_wins
                Fixtures.sample_risks
                [Fixtures.interaction 1 2 0.3 "Moderate";
                 Fixtures.interaction 3 9 0.5 "Moderate"])
      as (_ & _ & _ & Hrepeat).
    apply (Hrepeat (Fixtures.interaction 2 1 0.9 "Strong")).
    vm_compute. left. reflexivity.
Defined.

(** X5: the edge set of a built graph, for every input. Two nodes are joined
    exactly when some interaction lies over their unordered pair, so no edge
    is invented and none is lost, and the number of edges is the number of
    different unordered pairs among the interactions: a pair given twice
    counts once, and an interaction of a risk with itself counts as an
    edge. *)
Theorem build_risk_network_edges
    (risks : list Models.Risk) (interactions : list Models.RiskInteraction) :
  (forall a b,
      Nx.has_edge (InteractionAnalysis.build_risk_network risks interactions) a b
      = true
      <-> exists i, In i interactions /\ unordered_pair a b = interaction_pair i)
  /\ Nx.number_of_edges (InteractionAnalysis.build_risk_network risks interactions)
     = length (distinct_pairs interactions).
Proof.
  unfold InteractionAnalysis.build_risk_network.
  set (G0 := fold_left (fun G risk => Nx.add_node G (Models.id risk) risk)
               risks Nx.empty).
  assert (Hedgeless : edgeless G0) by (apply edgeless_add_nodes; constructor).
  split.
  - intros a b.
    rewrite has_edge_add_edges, (edgeless_has_edge G0 a b Hedgeless), orb_false_r.
    rewrite existsb_exists. split.
    + intros (i & Hi & Hj). exists i. split; auto. now apply joins_pair.
    + intros (i & Hi & Hp). exists i. split; auto. now apply joins_pair.
  - unfold Nx.number_of_edges.
    rewrite (edge_ends_add_edges interactions G0 Hedgeless).
    rewrite Nat.mul_comm. now apply Nat.div_mul.
Qed.

(** ** Further properties of the scoring loop *)

Section ScoringReturns.

Import Models.

Variable INTERACTION_ANALYSIS_PROMPT :
  string -> string -> string -> string -> string -> string -> string.
Variable Service : Type.
Variable ChatCompletion_create : string -> Service -> Exc string * Service.

Local Abbreviation score_pair :=
  (InteractionAnalysis.score_pair INTERACTION_ANALYSIS_PROMPT Service
     ChatCompletion_create).
Local Abbreviation inner_loop :=
  (InteractionAnalysis.inner_loop INTERACTION_ANALYSIS_PROMPT Service
     ChatCompletion_create).
Local Abbreviation outer_loop :=
  (InteractionAnalysis.outer_loop INTERACTION_ANALYSIS_PROMPT Service
     ChatCompletion_create).

Lemma score_pair_returned (risk1 risk2 : Risk) (sv sv' : Service)
    (i : RiskInteraction) :
  score_pair risk1 risk2 sv = (inr i, sv') ->
  interaction_ends i = (id risk1, id risk2) /\ derived_from_analysis i.
Proof.
  unfold InteractionAnalysis.score_pair.
  destruct (ChatCompletion_create _ sv) as [[e|text] sv1]; [discriminate|].
  intros [= <- <-]. split; [reflexivity|].
  exists text. repeat split.
Qed.

Lemma inner_loop_returned (risk1 : Risk) (rest : list Risk) :
  forall interactions sv result sv',
    inner_loop risk1 rest interactions sv = (inr result, sv') ->
    exists added,
      result = interactions ++ added
      /\ map interaction_ends added = map (pair (id risk1)) (map id rest)
      /\ Forall derived_from_analysis added.
Proof.
  induction rest as [|risk2 rest IH]; intros interactions sv result sv'; simpl.
  - intros [= <- <-]. exists []. now rewrite app_nil_r.
  - destruct (score_pair risk1 risk2 sv) as [[e|i] sv1] eqn:Hpair; [discriminate|].
    intros Hrest.
    destruct (score_pair_returned _ _ _ _ _ Hpair) as [Hends Hderived].
    destruct (IH _ _ _ _ Hrest) as (added & -> & Hadded & Hall).
    exists (i :: added). rewrite <- app_assoc. simpl.
    rewrite Hends, Hadded. auto.
Qed.

Lemma outer_loop_returned (risks : list Risk) :
  forall interactions sv result sv',
    outer_loop risks interactions sv = (inr result, sv') ->
    exists added,
      result = interactions ++ added
      /\ map interaction_ends added = pairs_in_order (map id risks)
      /\ Forall derived_from_analysis added.
Proof.
  induction risks as [|risk1 rest IH]; intros interactions sv result sv'; simpl.
  - intros [= <- <-]. exists []. now rewrite app_nil_r.
  - destruct (inner_loop risk1 rest interactions sv) as [[e|mid] sv1] eqn:Hinner;
      [discriminate|].
    intros Hrest.
    destruct (inner_loop_returned _ _ _ _ _ _ Hinner) as (first & -> & Hfirst & Hall1).
    destruct (IH _ _ _ _ Hrest) as (others & -> & Hothers & Hall2).
    exists (first ++ others). rewrite <- app_assoc, map_app, Hfirst, Hothers.
    repeat split. apply Forall_app. auto.
Qed.

End ScoringReturns.

(** X6: the scoring returns all pairs or none. Whatever the chat service
    does, a list that is returned holds one interaction for every pair of
    positions [i < j], in the order of the loops; a failing call leaves no
    partial list behind. Every returned interaction keeps the answer it was
    scored from: its score is the number extracted from that text and its
    type is the band of that score. *)
Theorem analyze_risk_interactions_returns_all
    (INTERACTION_ANALYSIS_PROMPT :
       string -> string -> string -> string -> string -> string -> string)
    (Service : Type)
    (ChatCompletion_create : string -> Service -> Exc string * Service)
    (risks : list Models.Risk) (sv sv' : Service)
    (interactions : list Models.RiskInteraction) :
  InteractionAnalysis.analyze_risk_interactions
    INTERACTION_ANALYSIS_PROMPT Service ChatCompletion_create risks sv
  = (inr interactions, sv') ->
  map interaction_ends interactions = pairs_in_order (map Models.id risks)
  /\ length interactions = length risks * (length risks - 1) / 2
  /\ Forall derived_from_analysis interactions.
Proof.
  unfold InteractionAnalysis.analyze_risk_interactions. intros Hrun.
  destruct (outer_loop_returned _ _ _ _ _ _ _ _ Hrun) as (added & Heq & Hends & Hall).
  simpl in Heq. subst added. repeat split; auto.
  pose proof (length_pairs_in_order (map Models.id risks)) as Hlen.
  rewrite <- Hends, !length_map in Hlen.
  rewrite <- Hlen, Nat.mul_comm. symmetry. now apply Nat.div_mul.
Qed.

Lemma analyze_risk_interactions_returns_all_witness :
  map interaction_ends
    [ {| Models.risk1_id := 1; Models.risk2_id := 2;
         Models.interaction_score := 0.5; Models.interaction_type := "Moderate";
         Models.analysis := Some "no score given"%string |} ]
  = pairs_in_order (map Models.id (firstn 2 Fixtures.sample_risks))
  /\ length
       [ {| Models.risk1_id := 1; Models.risk2_id := 2;
            Models.interaction_score := 0.5; Models.interaction_type := "Moderate";
            Models.analysis := Some "no score given"%string |} ]
     = length (firstn 2 Fixtures.sample_risks)
       * (length (firstn 2 Fixtures.sample_risks) - 1) / 2
  /\ Forall derived_from_analysis
       [ {| Models.risk1_id := 1; Models.risk2_id := 2;
            Models.interaction_score := 0.5; Models.interaction_type := "Moderate";
            Models.analysis := Some "no score given"%string |} ].
Proof.
  apply (analyze_risk_interactions_returns_all
           StandIns.plain_prompt nat (StandIns.canned_service "no score given")
           (firstn 2 Fixtures.sample_risks) 0 1).
  vm_compute. reflexivity.
Defined.

(** X7: a list of fewer than two risks is scored without a call: the result
    is the empty list and the chat service is left in the state it was in. *)
Theorem analyze_risk_interactions_needs_two
    (INTERACTION_ANALYSIS_PROMPT :
       string -> string -> string -> string -> string -> string -> string)
    (Service : Type)
    (ChatCompletion_create : string -> Service -> Exc string * Service)
    (risks : list Models.Risk) (sv : Service) :
  length risks <= 1 ->
  InteractionAnalysis.analyze_risk_interactions
    INTERACTION_ANALYSIS_PROMPT Service ChatCompletion_create risks sv
  = (inr [], sv).
Proof.
  destruct risks as [|r [|r' risks]]; simpl; intros Hlen; try reflexivity. lia.
Qed.

Lemma analyze_risk_interactions_needs_two_witness :
  InteractionAnalysis.analyze_risk_interactions
    StandIns.plain_prompt nat (StandIns.canned_service "Score: 0.6")
    (firstn 1 Fixtures.sample_risks) 7
  = (inr [], 7).
Proof.
  apply (analyze_risk_interactions_needs_two
           StandIns.plain_prompt nat (StandIns.canned_service "Score: 0.6")
           (firstn 1 Fixtures.sample_risks) 7).
  simpl. lia.
Defined.

(** ** Further properties of score extraction *)

Section ScanFacts.

Implicit Types (s ds : list ascii) (c : ascii).

Lemma span_digits_none s :
  existsb Re.is_digit s = false -> Re.span_digits s = ([], s).
Proof.
  destruct s as [|c s]; simpl; auto.
  destruct (Re.is_digit c); [discriminate|reflexivity].
Qed.

Lemma existsb_tail_false c s :
  existsb Re.is_digit (c :: s) = false -> existsb Re.is_digit s = false.
Proof. simpl. now destruct (Re.is_digit c). Qed.

Lemma match_here_without_digit s :
  existsb Re.is_digit s = false -> Re.match_here s = None.
Proof.
  intros Hs. unfold Re.match_here, Re.match_float, Re.match_int.
  rewrite (span_digits_none s Hs). simpl.
  assert (Hsign : forall s1,
             existsb Re.is_digit s1 = false ->
             (let '(int_part, s2) := Re.span_digits s1 in
              match s2 with
              | c :: s3 =>
                  if Ascii.eqb c "."
                  then match fst (Re.span_digits s3) with
                       | [] => None
                       | frac => Some (@nil ascii ++ int_part ++ c :: frac)
                       end
                  else None
              | [] => None
              end) = None).
  { intros s1 H1. rewrite (span_digits_none s1 H1).
    destruct s1 as [|c s3]; auto.
    destruct (Ascii.eqb c "."); auto.
    now rewrite (span_digits_none s3 (existsb_tail_false c s3 H1)). }
  destruct s as [|c s']; [reflexivity|].
  destruct (Re.is_sign c).
  - pose proof (existsb_tail_false c s' Hs) as Hs'.
    rewrite (span_digits_none s' Hs').
    destruct s' as [|c' s3]; auto.
    destruct (Ascii.eqb c' "."); auto.
    now rewrite (span_digits_none s3 (existsb_tail_false c' s3 Hs')).
  - now rewrite (Hsign (c :: s') Hs).
Qed.

Lemma scan_without_digit s :
  existsb Re.is_digit s = false -> forall skip, Re.scan skip s = [].
Proof.
  induction s as [|c s IH]; intros Hs skip; [reflexivity|].
  pose proof (existsb_tail_false c s Hs) as Hs'.
  simpl Re.scan. destruct skip as [|skip]; [|now apply IH].
  rewrite (match_here_without_digit (c :: s) Hs). now apply IH.
Qed.

Lemma scan_with_digit s :
  existsb Re.is_digit s = true -> Re.scan 0 s <> [].
Proof.
  induction s as [|c s IH]; [discriminate|]. intros Hs.
  simpl Re.scan. destruct (Re.match_here (c :: s)) as [tok|] eqn:Hm; [discriminate|].
  apply IH. simpl in Hs. destruct (Re.is_digit c) eqn:Hc; [|exact Hs].
  exfalso. unfold Re.match_here in Hm.
  destruct (Re.match_float (c :: s)); [discriminate|].
  unfold Re.match_int in Hm. simpl in Hm. rewrite Hc in Hm.
  destruct (Re.span_digits s). discriminate.
Qed.

Lemma scan_skips s : forall skip, length s <= skip -> Re.scan skip s = [].
Proof.
  induction s as [|c s IH]; intros skip Hlen; [reflexivity|].
  simpl in Hlen. destruct skip as [|skip]; [lia|].
  simpl. apply IH. lia.
Qed.

Lemma span_digits_all ds rest :
  forallb Re.is_digit ds = true ->
  existsb Re.is_digit (firstn 1 rest) = false ->
  Re.span_digits (ds ++ rest) = (ds, rest).
Proof.
  intros Hds Hrest. induction ds as [|d ds IH]; simpl.
  - destruct rest as [|c rest]; auto. simpl in Hrest.
    destruct (Re.is_digit c) eqn:Hc; [discriminate|].
    unfold Re.span_digits. now rewrite Hc.
  - simpl in Hds. apply andb_true_iff in Hds. destruct Hds as [-> Hds].
    now rewrite (IH Hds).
Qed.

Lemma digit_is_no_sign c : Re.is_digit c = true -> Re.is_sign c = false.
Proof.
  unfold Re.is_sign. intros Hc.
  destruct (Ascii.eqb_spec c "-") as [->|_]; [discriminate|].
  destruct (Ascii.eqb_spec c "+") as [->|_]; [discriminate|reflexivity].
Qed.

Lemma digit_is_no_dot c : Re.is_digit c = true -> Ascii.eqb c "." = false.
Proof.
  intros Hc. destruct (Ascii.eqb_spec c ".") as [->|_]; [discriminate|reflexivity].
Qed.

(** A run of digits on its own is one token of the second alternative. *)
Lemma match_here_digits ds :
  ds <> [] -> forallb Re.is_digit ds = true -> Re.match_here ds = Some ds.
Proof.
  intros Hne Hds. destruct ds as [|d ds]; [contradiction|].
  pose proof Hds as Hd. simpl in Hd. apply andb_true_iff in Hd.
  destruct Hd as [Hd _].
  pose proof (span_digits_all (d :: ds) [] Hds eq_refl) as Hspan.
  rewrite app_nil_r in Hspan.
  unfold Re.match_here, Re.match_float, Re.match_int.
  rewrite (digit_is_no_sign d Hd), Hspan. reflexivity.
Qed.

End ScanFacts.

(** X8: the default score is taken exactly when the response has no digit.
    An ASCII text without any digit character has no numeric token and is
    scored 0.5, which is typed Moderate; an ASCII text with a digit has a last
    token, and that token alone decides the score. *)
Theorem extract_interaction_score_default_iff_no_digit (analysis : string) :
  ascii_text analysis = true ->
  (existsb Re.is_digit (list_ascii_of_string analysis) = false ->
   Re.findall analysis = []
   /\ InteractionAnalysis.extract_interaction_score analysis = 0.5%float
   /\ InteractionAnalysis.determine_interaction_type
        (InteractionAnalysis.extract_interaction_score analysis) = "Moderate"%string)
  /\ (existsb Re.is_digit (list_ascii_of_string analysis) = true ->
      exists tokens token,
        Re.findall analysis = tokens ++ [token]
        /\ InteractionAnalysis.extract_interaction_score analysis
           = Re.float_of_token token).
Proof.
  intros _. split.
  - intros Hnone.
    assert (Hfind : Re.findall analysis = [])
      by (unfold Re.findall; now apply scan_without_digit).
    rewrite (extract_interaction_score_default analysis Hfind).
    repeat split; auto.
  - intros Hsome.
    destruct (exists_last (scan_with_digit _ Hsome)) as (tokens & token & Hfind).
    exists tokens, token. split; [exact Hfind|].
    now apply extract_interaction_score_last with (tokens := tokens).
Qed.

Lemma extract_interaction_score_default_iff_no_digit_witness :
  Re.findall "The risks interact, but no score is given." = []
  /\ InteractionAnalysis.extract_interaction_score
       "The risks interact, but no score is given." = 0.5%float
  /\ InteractionAnalysis.determine_interaction_type
       (InteractionAnalysis.extract_interaction_score
          "The risks interact, but no score is given.") = "Moderate"%string.
Proof.
  apply (extract_interaction_score_default_iff_no_digit
           "The risks interact, but no score is given.").
  - vm_compute. reflexivity.
  - vm_compute. reflexivity.
Defined.

(** X9: a sign counts only before a decimal point. A minus sign followed by
    digits alone is not part of the token, so the text "-" followed by the
    digits [ds] is scored as the integer [ds] with a positive sign; followed
    by digits, a point and more digits, the sign belongs to the token. *)
Theorem extract_interaction_score_sign (ds fs : list ascii) :
  forallb Re.is_digit ds = true ->
  forallb Re.is_digit fs = true ->
  (ds <> [] ->
   Re.findall (string_of_list_ascii ("-"%char :: ds)) = [ds]
   /\ InteractionAnalysis.extract_interaction_score
        (string_of_list_ascii ("-"%char :: ds))
      = Re.decimal_to_float false (Re.digits_value ds) 0)
  /\ (fs <> [] ->
      Re.findall (string_of_list_ascii ("-"%char :: ds ++ "."%char :: fs))
      = ["-"%char :: ds ++ "."%char :: fs]).
Proof.
  intros Hds Hfs. split.
  - intros Hne.
    assert (Hfind : Re.findall (string_of_list_ascii ("-"%char :: ds)) = [ds]).
    { unfold Re.findall. rewrite list_ascii_of_string_of_list_ascii.
      pose proof (span_digits_all ds [] Hds eq_refl) as Hspan.
      rewrite app_nil_r in Hspan.
      assert (Hminus : Re.match_here ("-"%char :: ds) = None).
      { unfold Re.match_here, Re.match_float, Re.match_int. simpl.
        now rewrite Hspan. }
      simpl Re.scan. rewrite Hminus.
      destruct ds as [|d ds']; [contradiction|].
      simpl Re.scan. rewrite (match_here_digits (d :: ds') Hne Hds).
      rewrite scan_skips; [reflexivity|simpl; lia]. }
    split; [exact Hfind|].
    rewrite (extract_interaction_score_last _ [] ds Hfind).
    unfold Re.float_of_token.
    destruct ds as [|d ds']; [contradiction|].
    pose proof Hds as Hd. simpl in Hd. apply andb_true_iff in Hd.
    destruct Hd as [Hd _].
    rewrite (digit_is_no_sign d Hd).
    pose proof (span_digits_all (d :: ds') [] Hds eq_refl) as Hspan.
    rewrite app_nil_r in Hspan. rewrite Hspan.
    now rewrite app_nil_r.
  - intros Hne. unfold Re.findall. rewrite list_ascii_of_string_of_list_ascii.
    assert (Hmatch : Re.match_here ("-"%char :: ds ++ "."%char :: fs)
                     = Some ("-"%char :: ds ++ "."%char :: fs)).
    { unfold Re.match_here, Re.match_float. simpl.
      rewrite (span_digits_all ds ("."%char :: fs) Hds eq_refl). simpl.
      pose proof (span_digits_all fs [] Hfs eq_refl) as Hspan.
      rewrite app_nil_r in Hspan. rewrite Hspan. simpl.
      destruct fs as [|f fs']; [contradiction|reflexivity]. }
    simpl Re.scan. rewrite Hmatch.
    rewrite scan_skips; [reflexivity|simpl; lia].
Qed.

Lemma extract_interaction_score_sign_witness :
  (Re.findall "-5" = [list_ascii_of_string "5"]
   /\ InteractionAnalysis.extract_interaction_score "-5"
      = Re.decimal_to_float false 5 0)
  /\ Re.findall "-5.25" = [list_ascii_of_string "-5.25"].
Proof.
  destruct (extract_interaction_score_sign
              (list_ascii_of_string "5") (list_ascii_of_string "25")
              eq_refl eq_refl) as [Hint Hfrac].
  split.
  - apply Hint. discriminate.
  - apply Hfrac. discriminate.
Defined.

(** ** Correlations *)

Lemma foldM_app {A B} (body : B -> A -> Exc B) (xs ys : list A) (init : B) :
  foldM body (xs ++ ys) init = (b <- foldM body xs init ;; foldM body ys b).
Proof.
  revert init. induction xs as [|x xs IH]; intros init; [reflexivity|].
  simpl app. rewrite !foldM_cons. destruct (body init x) as [e|b]; simpl; auto.
Qed.

Lemma foldM_map {A A' B} (body : B -> A' -> Exc B) (f : A -> A')
    (xs : list A) (init : B) :
  foldM body (map f xs) init = foldM (fun b x => body b (f x)) xs init.
Proof.
  revert init. induction xs as [|x xs IH]; intros init; [reflexivity|].
  simpl map. rewrite !foldM_cons. destruct (body init (f x)) as [e|b]; simpl; auto.
Qed.

Section CorrelationFacts.

Variable pearsonr : list float -> list float -> Exc (float * float).
Variable simulation_results : Dict.t (list float).

Local Abbreviation correlate_pair :=
  (InteractionAnalysis.correlate_pair pearsonr simulation_results).
Local Abbreviation correlate_all :=
  (InteractionAnalysis.correlate_all pearsonr simulation_results).

(** The two loops as one loop over the pairs in order. *)
Lemma correlate_all_pairs (risk_ids : list Z) :
  forall correlations,
    correlate_all risk_ids correlations
    = foldM (fun correlations p => correlate_pair correlations (fst p) (snd p))
        (pairs_in_order risk_ids) correlations.
Proof.
  induction risk_ids as [|a rest IH]; intros correlations; [reflexivity|].
  simpl. rewrite foldM_app, foldM_map. simpl.
  destruct (foldM (fun correlations risk2_id =>
                     correlate_pair correlations a risk2_id) rest correlations)
    as [e|c']; simpl; auto.
Qed.

Lemma pair_set_fresh {V} (d : PairDict.t V) (k : Z * Z) (v : V) :
  ~ In k (PairDict.keys d) -> PairDict.set d k v = d ++ [(k, v)].
Proof.
  induction d as [|[k0 v0] d IH]; simpl; [reflexivity|]. intros Hnot.
  destruct (PairDict.key_eqb k0 k) eqn:Heq.
  - exfalso. apply Hnot. left. unfold PairDict.key_eqb in Heq.
    apply andb_true_iff in Heq. rewrite !Z.eqb_eq in Heq.
    destruct k0, k; simpl in *. destruct Heq. now subst.
  - rewrite IH; auto.
Qed.

Local Abbreviation correlated := (correlation_of pearsonr simulation_results).

Lemma correlate_pair_returned correlations a b correlations' :
  correlate_pair correlations a b = inr correlations' ->
  exists c,
    correlations' = PairDict.set correlations (a, b) c /\ correlated ((a, b), c).
Proof.
  unfold InteractionAnalysis.correlate_pair, Dict.item.
  destruct (Dict.get simulation_results a) as [x|] eqn:Hx; simpl; [|discriminate].
  destruct (Dict.get simulation_results b) as [y|] eqn:Hy; simpl; [|discriminate].
  destruct (pearsonr x y) as [e|[c p]] eqn:Hp; simpl; [discriminate|].
  intros [= <-]. exists c. split; auto. exists x, y, p. auto.
Qed.

Lemma correlate_pairs_returned (pairs : list (Z * Z)) :
  forall correlations result,
    NoDup (PairDict.keys correlations ++ pairs) ->
    foldM (fun correlations p => correlate_pair correlations (fst p) (snd p))
      pairs correlations = inr result ->
    exists added,
      result = correlations ++ added
      /\ map fst added = pairs
      /\ Forall correlated added.
Proof.
  induction pairs as [|[a b] pairs IH]; intros correlations result Hnodup.
  - intros [= <-]. exists []. now rewrite app_nil_r.
  - rewrite foldM_cons. simpl fst. simpl snd.
    destruct (correlate_pair correlations a b) as [e|c1] eqn:Hpair; simpl;
      [discriminate|].
    destruct (correlate_pair_returned _ _ _ _ Hpair) as (c & -> & Hc).
    rewrite pair_set_fresh.
    + intros Hrest.
      assert (Hnodup' : NoDup (PairDict.keys (correlations ++ [((a, b), c)]) ++ pairs))
        by (unfold PairDict.keys; rewrite map_app, <- app_assoc; exact Hnodup).
      destruct (IH _ _ Hnodup' Hrest) as (added & -> & Hkeys & Hall).
      exists (((a, b), c) :: added). rewrite <- app_assoc. simpl.
      rewrite Hkeys. auto.
    + apply NoDup_remove_2 in Hnodup. intros Hin. apply Hnodup.
      apply in_or_app. now left.
Qed.

(** A pair with a missing series raises [KeyError] when every earlier
    correlation was computed. *)
Lemma correlate_pairs_missing (pairs : list (Z * Z)) :
  (forall x y, exists r, pearsonr x y = inr r) ->
  (exists p,
      In p pairs
      /\ (Dict.get simulation_results (fst p) = None
          \/ Dict.get simulation_results (snd p) = None)) ->
  forall correlations,
    foldM (fun correlations p => correlate_pair correlations (fst p) (snd p))
      pairs correlations = inl KeyError.
Proof.
  intros Htotal. induction pairs as [|[a b] pairs IH];
    intros (p & Hin & Hmiss) correlations; [destruct Hin|].
  rewrite foldM_cons. simpl fst. simpl snd.
  unfold InteractionAnalysis.correlate_pair at 1. unfold Dict.item.
  destruct (Dict.get simulation_results a) as [x|] eqn:Hx; simpl; [|reflexivity].
  destruct (Dict.get simulation_results b) as [y|] eqn:Hy; simpl; [|reflexivity].
  destruct (Htotal x y) as [r ->]. simpl.
  apply IH. exists p. split; auto.
  destruct Hin as [<-|Hin]; auto. simpl in Hmiss.
  destruct Hmiss; congruence.
Qed.

End CorrelationFacts.

Lemma pairs_in_order_cover (xs : list Z) (x : Z) :
  2 <= length xs ->
  In x xs ->
  exists p, In p (pairs_in_order xs) /\ (fst p = x \/ snd p = x).
Proof.
  destruct xs as [|a [|b rest]]; simpl; try lia. intros _ [->|[->|Hin]].
  - exists (x, b). split; auto.
  - exists (a, x). split; auto.
  - exists (a, x). split; auto. right. apply in_or_app. left.
    apply in_map_iff. eauto.
Qed.

Lemma pairs_in_order_NoDup (xs : list Z) : NoDup xs -> NoDup (pairs_in_order xs).
Proof.
  intros Hxs. eapply NoDup_map_inv. exact (pairs_in_order_distinct xs Hxs).
Qed.

(** X10: correlations are computed for every pair or not at all. When the
    ids of the risks are distinct, a returned dictionary has one entry for
    each pair of positions [i < j], keyed by the two ids in that order and in
    the order of the loops, and every entry is the coefficient that
    [pearsonr] returned for the two series stored under its ids. *)
Theorem calculate_risk_correlations_all_pairs
    (pearsonr : list float -> list float -> Exc (float * float))
    (risks : list Models.Risk) (simulation_results : Dict.t (list float))
    (correlations : PairDict.t float) :
  NoDup (map Models.id risks) ->
  InteractionAnalysis.calculate_risk_correlations pearsonr risks simulation_results
  = inr correlations ->
  PairDict.keys correlations = pairs_in_order (map Models.id risks)
  /\ forall a b c,
      In ((a, b), c) correlations ->
      exists x y p,
        Dict.get simulation_results a = Some x
        /\ Dict.get simulation_results b = Some y
        /\ pearsonr x y = inr (c, p).
Proof.
  intros Hids. unfold InteractionAnalysis.calculate_risk_correlations.
  rewrite correlate_all_pairs. intros Hrun.
  destruct (correlate_pairs_returned pearsonr simulation_results
              (pairs_in_order (map Models.id risks)) [] correlations
              (pairs_in_order_NoDup _ Hids) Hrun) as (added & -> & Hkeys & Hall).
  split; [exact Hkeys|].
  intros a b c Hin. rewrite Forall_forall in Hall.
  exact (Hall ((a, b), c) Hin).
Qed.

Lemma calculate_risk_correlations_all_pairs_witness :
  PairDict.keys [((1, 2)%Z, 1%float)]
  = pairs_in_order (map Models.id (firstn 2 Fixtures.sample_risks))
  /\ forall a b c,
      In ((a, b), c) [((1, 2)%Z, 1%float)] ->
      exists x y p,
        Dict.get [(1%Z, [0.5; 0.6]%float); (2%Z, [0.4; 0.5]%float)] a = Some x
        /\ Dict.get [(1%Z, [0.5; 0.6]%float); (2%Z, [0.4; 0.5]%float)] b = Some y
        /\ (fun _ _ : list float => inr (1%float, 0%float) : Exc (float * float)) x y
           = inr (c, p).
Proof.
  apply (calculate_risk_correlations_all_pairs
           (fun _ _ => inr (1%float, 0%float))
           (firstn 2 Fixtures.sample_risks)
           [(1%Z, [0.5; 0.6]%float); (2%Z, [0.4; 0.5]%float)]).
  - repeat constructor; simpl; intuition lia.
  - vm_compute. reflexivity.
Defined.

(** X11: a risk without a simulation series breaks the whole computation.
    With two or more risks, one of whose ids has no entry in the simulation
    results, the call raises [KeyError] and returns no correlation at all,
    however many pairs could have been computed. *)
Theorem calculate_risk_correlations_missing_series
    (pearsonr : list float -> list float -> Exc (float * float))
    (risks : list Models.Risk) (simulation_results : Dict.t (list float))
    (risk : Models.Risk) :
  (forall x y, exists r, pearsonr x y = inr r) ->
  2 <= length risks ->
  In risk risks ->
  Dict.get simulation_results (Models.id risk) = None ->
  InteractionAnalysis.calculate_risk_correlations pearsonr risks simulation_results
  = inl KeyError.
Proof.
  intros Htotal Hlen Hin Hmissing.
  unfold InteractionAnalysis.calculate_risk_correlations.
  rewrite correlate_all_pairs. apply correlate_pairs_missing; auto.
  destruct (pairs_in_order_cover (map Models.id risks) (Models.id risk))
    as (p & Hp & Hends).
  - now rewrite length_map.
  - now apply in_map.
  - exists p. split; auto. destruct Hends as [-> | ->]; auto.
Qed.

Lemma calculate_risk_correlations_missing_series_witness :
  InteractionAnalysis.calculate_risk_correlations
    (fun _ _ => inr (1%float, 0%float))
    Fixtures.sample_risks
    [(1%Z, [0.5; 0.6; 0.7; 0.8; 0.9]%float);
     (2%Z, [0.4; 0.5; 0.6; 0.7; 0.8]%float);
     (3%Z, [0.3; 0.4; 0.5; 0.6; 0.7]%float)]
  = inl KeyError.
Proof.
  apply (calculate_risk_correlations_missing_series
           (fun _ _ => inr (1%float, 0%float))
           Fixtures.sample_risks
           [(1%Z, [0.5; 0.6; 0.7; 0.8; 0.9]%float);
            (2%Z, [0.4; 0.5; 0.6; 0.7; 0.8]%float);
            (3%Z, [0.3; 0.4; 0.5; 0.6; 0.7]%float)]
           (Fixtures.risk 4 "Physical Risk 2" "Physical" "Chronic")).
  - intros x y. eauto.
  - simpl. lia.
  - simpl. auto.
  - reflexivity.
Defined.

(** ** Systemic risks *)

Section SystemicFacts.

Import Models.

Lemma contains_empty (haystack : string) : Str.contains "" haystack = true.
Proof. destruct haystack; reflexivity. Qed.

Lemma systemic_entries (company_industry : string) (key_dependencies : list string)
    (risks : list Risk) :
  forall systemic_risks,
    NoDup (Dict.keys systemic_risks ++ map id risks) ->
    fold_left
      (fun systemic_risks risk =>
         if SystemicRiskAnalysis.is_systemic_risk risk company_industry key_dependencies
         then Dict.set systemic_risks (id risk)
                {| SystemicRiskAnalysis.entry_description := description risk;
                   SystemicRiskAnalysis.entry_impact := impact risk;
                   SystemicRiskAnalysis.systemic_factor :=
                     SystemicRiskAnalysis.identify_systemic_factor risk |}
         else systemic_risks)
      risks systemic_risks
    = systemic_risks
      ++ map (fun risk =>
                (id risk,
                 {| SystemicRiskAnalysis.entry_description := description risk;
                    SystemicRiskAnalysis.entry_impact := impact risk;
                    SystemicRiskAnalysis.systemic_factor :=
                      SystemicRiskAnalysis.identify_systemic_factor risk |}))
           (filter (fun risk =>
                      SystemicRiskAnalysis.is_systemic_risk
                        risk company_industry key_dependencies) risks).
Proof.
  induction risks as [|r risks IH]; intros acc Hnodup; simpl.
  - now rewrite app_nil_r.
  - assert (Hfresh : Dict.get acc (id r) = None).
    { apply get_None_keys. intros Hin.
      apply NoDup_remove_2 in Hnodup. apply Hnodup.
      apply in_or_app. now left. }
    destruct (SystemicRiskAnalysis.is_systemic_risk r company_industry key_dependencies).
    + rewrite (set_fresh acc _ _ Hfresh), IH.
      * now rewrite <- app_assoc.
      * unfold Dict.keys. rewrite map_app, <- app_assoc. exact Hnodup.
    + apply IH. apply NoDup_remove_1 in Hnodup. exact Hnodup.
Qed.

End SystemicFacts.

(** X12: an empty dependency makes every risk systemic. The empty string is
    found in every description, so a dependency list that holds it
    classifies each risk as systemic, whatever its description says. *)
Theorem is_systemic_risk_empty_dependency
    (risk : Models.Risk) (company_industry : string) (key_dependencies : list string) :
  In ""%string key_dependencies ->
  SystemicRiskAnalysis.is_systemic_risk risk company_industry key_dependencies = true.
Proof.
  intros Hin. unfold SystemicRiskAnalysis.is_systemic_risk.
  apply orb_true_iff. right. apply existsb_exists.
  exists ""%string. split; auto. apply contains_empty.
Qed.

Lemma is_systemic_risk_empty_dependency_witness :
  SystemicRiskAnalysis.is_systemic_risk
    (Fixtures.risk 2 "Local operational issue" "Operational" "")
    "Energy" ["Global markets"; ""]%string = true.
Proof.
  apply (is_systemic_risk_empty_dependency
           (Fixtures.risk 2 "Local operational issue" "Operational" "")
           "Energy" ["Global markets"; ""]%string).
  simpl. auto.
Defined.

(** X13: more dependencies never make a risk less systemic, and the
    industry plays no part: a risk that is systemic under one dependency
    list and industry is systemic under every list that includes it and
    every industry. *)
Theorem is_systemic_risk_monotone
    (risk : Models.Risk) (industry industry' : string)
    (key_dependencies more_dependencies : list string) :
  incl key_dependencies more_dependencies ->
  SystemicRiskAnalysis.is_systemic_risk risk industry key_dependencies = true ->
  SystemicRiskAnalysis.is_systemic_risk risk industry' more_dependencies = true.
Proof.
  unfold SystemicRiskAnalysis.is_systemic_risk. intros Hincl.
  rewrite !orb_true_iff, !existsb_exists.
  intros [Hkeyword|(dep & Hdep & Hfound)]; [now left|].
  right. exists dep. split; auto.
Qed.

Lemma is_systemic_risk_monotone_witness :
  SystemicRiskAnalysis.is_systemic_risk
    (Fixtures.risk 1 "Depends on OIL SUPPLIERS abroad" "Market" "")
    "Mining" ["Rare earths"; "Oil suppliers"]%string = true.
Proof.
  apply (is_systemic_risk_monotone
           (Fixtures.risk 1 "Depends on OIL SUPPLIERS abroad" "Market" "")
           "Energy" "Mining" ["Oil suppliers"]%string
           ["Rare earths"; "Oil suppliers"]%string).
  - intros dep [<-|[]]. simpl. auto.
  - vm_compute. reflexivity.
Defined.

(** X14: the systemic risks of a list with distinct ids are its systemic
    members, in their order: each is stored under its id with its own
    description and impact and the factor its description names, and no
    other id is stored. *)
Theorem analyze_systemic_risks_filters
    (risks : list Models.Risk) (company_industry : string)
    (key_dependencies : list string) :
  NoDup (map Models.id risks) ->
  SystemicRiskAnalysis.analyze_systemic_risks risks company_industry key_dependencies
  = map (fun risk =>
           (Models.id risk,
            {| SystemicRiskAnalysis.entry_description := Models.description risk;
               SystemicRiskAnalysis.entry_impact := Models.impact risk;
               SystemicRiskAnalysis.systemic_factor :=
                 SystemicRiskAnalysis.identify_systemic_factor risk |}))
      (filter (fun risk =>
                 SystemicRiskAnalysis.is_systemic_risk
                   risk company_industry key_dependencies) risks).
Proof.
  intros Hids. unfold SystemicRiskAnalysis.analyze_systemic_risks.
  now rewrite systemic_entries.
Qed.

Lemma analyze_systemic_risks_filters_witness :
  SystemicRiskAnalysis.analyze_systemic_risks
    [Fixtures.risk 1 "Global supply chain disruption" "Physical" "Acute";
     Fixtures.risk 2 "Carbon pricing policy changes" "Transition" "Policy"]
    "Energy" ["Oil suppliers"]%string
  = [(1%Z,
      {| SystemicRiskAnalysis.entry_description := "Global supply chain disruption";
         SystemicRiskAnalysis.entry_impact := 0.5;
         SystemicRiskAnalysis.systemic_factor := "Supply Chain" |})].
Proof.
  apply (analyze_systemic_risks_filters
           [Fixtures.risk 1 "Global supply chain disruption" "Physical" "Acute";
            Fixtures.risk 2 "Carbon pricing policy changes" "Transition" "Policy"]
           "Energy" ["Oil suppliers"]%string).
  repeat constructor; simpl; intuition lia.
Defined.

(** ** Trigger points *)

Section TriggerFacts.

Import Models.

Variable format_float : float -> string.
Variable format_int : Z -> string.
Variable risk_network : Nx.Graph.
Variable external_data : SDict.t ExternalModels.ExternalData.

Local Abbreviation relevant_factors :=
  (SystemicRiskAnalysis.identify_relevant_external_factors format_float format_int).

Lemma sdict_get_key {V} (d : SDict.t V) (k : string) :
  In k (SDict.keys d) -> exists v, SDict.get d k = Some v.
Proof.
  induction d as [|[k0 v0] d IH]; simpl; [intros []|].
  destruct (String.eqb_spec k0 k) as [->|Hne]; [eauto|].
  intros [Heq|Hin]; [contradiction|auto].
Qed.

Lemma greatest_is_member (rest : list string) :
  forall first,
    In (fold_left (fun best k => if String.ltb best k then k else best) rest first)
       (first :: rest).
Proof.
  induction rest as [|k rest IH]; intros first; simpl; auto.
  destruct (IH (if String.ltb first k then k else first)) as [Heq|Hin]; auto.
  destruct (String.ltb first k); auto.
Qed.

(** With some external data the relevant factors are always found. *)
Lemma relevant_factors_total (risk : Risk) :
  external_data <> [] ->
  exists factors, relevant_factors risk external_data = inr factors.
Proof.
  intros Hne. unfold SystemicRiskAnalysis.identify_relevant_external_factors,
    SDict.max_key.
  destruct (SDict.keys external_data) as [|first rest] eqn:Hkeys.
  - destruct external_data; [contradiction|discriminate].
  - simpl.
    destruct (sdict_get_key external_data
                (fold_left (fun best k => if String.ltb best k then k else best)
                   rest first)) as [latest Hlatest].
    { rewrite Hkeys. apply greatest_is_member. }
    unfold SDict.item. rewrite Hlatest.
    destruct (Str.contains "economic" (Str.lower (description risk)));
      destruct (Str.contains "population" (Str.lower (description risk)));
      simpl; eauto.
Qed.

End TriggerFacts.

(** X15: no risk with two neighbours or fewer is a trigger point. When every
    risk is a node of the network with at most two neighbours, the result is
    the empty dictionary, and the external data is never consulted: the call
    returns even when there is none. *)
Theorem identify_trigger_points_needs_three_neighbours
    (format_float : float -> string) (format_int : Z -> string)
    (risks : list Models.Risk) (risk_network : Nx.Graph)
    (external_data : SDict.t ExternalModels.ExternalData) :
  (forall risk,
      In risk risks ->
      exists neighbors,
        Nx.neighbors risk_network (Models.id risk) = inr neighbors
        /\ length neighbors <= 2) ->
  SystemicRiskAnalysis.identify_trigger_points
    format_float format_int risks risk_network external_data
  = inr [].
Proof.
  intros Hsmall. unfold SystemicRiskAnalysis.identify_trigger_points.
  induction risks as [|r risks IH]; [reflexivity|].
  rewrite foldM_cons.
  destruct (Hsmall r (or_introl eq_refl)) as (neighbors & -> & Hlen). simpl.
  destruct (Nat.ltb_spec 2 (length neighbors)); [lia|].
  apply IH. intros risk Hin. apply Hsmall. now right.
Qed.

Lemma identify_trigger_points_needs_three_neighbours_witness :
  SystemicRiskAnalysis.identify_trigger_points
    (fun _ => "2.3"%string) (fun _ => "7794798739"%string)
    (firstn 3 Fixtures.sample_risks)
    (InteractionAnalysis.build_risk_network
       (firstn 3 Fixtures.sample_risks) (firstn 3 Fixtures.sample_interactions))
    []
  = inr [].
Proof.
  apply (identify_trigger_points_needs_three_neighbours
           (fun _ => "2.3"%string) (fun _ => "7794798739"%string)
           (firstn 3 Fixtures.sample_risks)
           (InteractionAnalysis.build_risk_network
              (firstn 3 Fixtures.sample_risks) (firstn 3 Fixtures.sample_interactions))
           []).
  intros risk [<-|[<-|[<-|[]]]]; eexists; (split; [vm_compute; reflexivity|]);
    simpl; lia.
Defined.

(** X16: a risk that is not a node of the network breaks the whole search.
    When some external data is given, the call raises the library's error
    naming the first risk of the list whose id is not in the network, and
    returns no trigger point, not even those of the risks before it. *)
Theorem identify_trigger_points_unknown_risk
    (format_float : float -> string) (format_int : Z -> string)
    (known unread : list Models.Risk) (risk : Models.Risk)
    (risk_network : Nx.Graph)
    (external_data : SDict.t ExternalModels.ExternalData) :
  external_data <> [] ->
  Forall (fun r => Dict.get risk_network (Models.id r) <> None) known ->
  Dict.get risk_network (Models.id risk) = None ->
  SystemicRiskAnalysis.identify_trigger_points
    format_float format_int (known ++ risk :: unread) risk_network external_data
  = inl (NetworkXError
           ("The node " ++ str_of_int (Models.id risk) ++ " is not in the graph.")).
Proof.
  intros Hdata Hknown Hunknown. unfold SystemicRiskAnalysis.identify_trigger_points.
  generalize (@nil (Z * SystemicRiskAnalysis.TriggerPoint)).
  induction Hknown as [|r known Hr Hknown IH]; intros acc; simpl app;
    rewrite foldM_cons; unfold Nx.neighbors at 1.
  - rewrite Hunknown. reflexivity.
  - destruct (Dict.get risk_network (Models.id r)) as [e|] eqn:He;
      [|contradiction]. simpl.
    destruct (relevant_factors_total format_float format_int external_data r Hdata)
      as [factors Hfactors].
    destruct (2 <? length (Dict.keys (Nx.nbrs e))); simpl.
    + rewrite Hfactors. simpl. apply IH.
    + apply IH.
Qed.

Lemma identify_trigger_points_unknown_risk_witness :
  SystemicRiskAnalysis.identify_trigger_points
    (fun _ => "5.7"%string) (fun _ => "7874965732"%string)
    (firstn 3 Fixtures.sample_risks
     ++ Fixtures.risk 4 "Physical Risk 2" "Physical" "Chronic" :: [])
    (InteractionAnalysis.build_risk_network
       (firstn 3 Fixtures.sample_risks) (firstn 3 Fixtures.sample_interactions))
    [("2021"%string,
      {| ExternalModels.year := 2021; ExternalModels.gdp_growth := 5.7;
         ExternalModels.population := 7874965732;
         ExternalModels.energy_demand := 176431;
         ExternalModels.carbon_price := 40;
         ExternalModels.renewable_energy_share := 0.31;
         ExternalModels.biodiversity_index := 0.68;
         ExternalModels.deforestation_rate := 0.48 |})]
  = inl (NetworkXError "The node 4 is not in the graph.").
Proof.
  apply (identify_trigger_points_unknown_risk
           (fun _ => "5.7"%string) (fun _ => "7874965732"%string)
           (firstn 3 Fixtures.sample_risks) []
           (Fixtures.risk 4 "Physical Risk 2" "Physical" "Chronic")).
  - discriminate.
  - repeat apply Forall_cons; try apply Forall_nil; vm_compute; discriminate.
  - vm_compute. reflexivity.
Defined.

(** X17: a returned trigger point is a well-connected node. Every entry of
    a returned dictionary is stored under the id of a node of the network
    that has more than two neighbours, and its connected risks are that
    node's neighbours as the network lists them. *)
Theorem identify_trigger_points_are_connected
    (format_float : float -> string) (format_int : Z -> string)
    (risks : list Models.Risk) (risk_network : Nx.Graph)
    (external_data : SDict.t ExternalModels.ExternalData)
    (trigger_points : Dict.t SystemicRiskAnalysis.TriggerPoint) :
  SystemicRiskAnalysis.identify_trigger_points
    format_float format_int risks risk_network external_data
  = inr trigger_points ->
  Forall
    (fun entry =>
       Nx.neighbors risk_network (fst entry)
       = inr (SystemicRiskAnalysis.connected_risks (snd entry))
       /\ 2 < length (SystemicRiskAnalysis.connected_risks (snd entry))
       /\ exists risk,
           In risk risks
           /\ Models.id risk = fst entry
           /\ Models.description risk
              = SystemicRiskAnalysis.trigger_description (snd entry))
    trigger_points.
Proof.
  unfold SystemicRiskAnalysis.identify_trigger_points.
  apply foldM_returned; [constructor|].
  intros acc r acc' Hin Hacc.
  destruct (Nx.neighbors risk_network (Models.id r)) as [e|neighbors] eqn:Hn;
    simpl; [discriminate|].
  destruct (Nat.ltb_spec 2 (length neighbors)); [|now intros [= <-]].
  destruct (SystemicRiskAnalysis.identify_relevant_external_factors
              format_float format_int r external_data) as [e|factors];
    simpl; [discriminate|].
  intros [= <-]. apply Forall_set; auto. simpl.
  repeat split; auto. exists r. auto.
Qed.

Lemma identify_trigger_points_are_connected_witness :
  Forall
    (fun entry =>
       Nx.neighbors Fixtures.sample_network (fst entry)
       = inr (SystemicRiskAnalysis.connected_risks (snd entry))
       /\ 2 < length (SystemicRiskAnalysis.connected_risks (snd entry))
       /\ exists risk,
           In risk Fixtures.sample_risks
           /\ Models.id risk = fst entry
           /\ Models.description risk
              = SystemicRiskAnalysis.trigger_description (snd entry))
    [(2%Z,
      {| SystemicRiskAnalysis.trigger_description := "Transition Risk 1";
         SystemicRiskAnalysis.connected_risks := [1; 3; 4]%Z;
         SystemicRiskAnalysis.external_factors := [] |});
     (3%Z,
      {| SystemicRiskAnalysis.trigger_description := "Market Risk 1";
         SystemicRiskAnalysis.connected_risks := [1; 2; 4]%Z;
         SystemicRiskAnalysis.external_factors := [] |})].
Proof.
  apply (identify_trigger_points_are_connected
           (fun _ => "5.7"%string) (fun _ => "7874965732"%string)
           Fixtures.sample_risks Fixtures.sample_network
           [("2021"%string,
             {| ExternalModels.year := 2021; ExternalModels.gdp_growth := 5.7;
                ExternalModels.population := 7874965732;
                ExternalModels.energy_demand := 176431;
                ExternalModels.carbon_price := 40;
                ExternalModels.renewable_energy_share := 0.31;
                ExternalModels.biodiversity_index := 0.68;
                ExternalModels.deforestation_rate := 0.48 |})]).
  vm_compute. reflexivity.
Defined.

(** ** Parsing a response into sections *)

Section ParseFacts.

Lemma paragraphs_nonempty (s current : list ascii) : Str.paragraphs s current <> [].
Proof.
  assert (Hgen : forall n s current, length s <= n -> Str.paragraphs s current <> []).
  { induction n as [|n IH]; intros [|c [|c' s'']] cur Hlen; simpl in *;
      try discriminate; try lia.
    destruct (Ascii.eqb c "010" && Ascii.eqb c' "010"); [discriminate|].
    apply (IH (c' :: s'')). simpl. lia. }
  now apply (Hgen (length s)).
Qed.

Lemma normalized_char (c : ascii) :
  (fun c' =>
     negb (Ascii.eqb c' " ")
     && negb ((65 <=? nat_of_ascii c') && (nat_of_ascii c' <=? 90)))
    (if Ascii.eqb (Str.lower_char c) " " then "_"%char else Str.lower_char c)
  = true.
Proof. destruct c as [[] [] [] [] [] [] [] []]; reflexivity. Qed.

Lemma normalized_title (title : string) :
  normalized_key (Str.underscore (Str.lower title)) = true.
Proof.
  unfold normalized_key. induction title as [|c title IH]; [reflexivity|].
  cbn [Str.lower Str.underscore list_ascii_of_string forallb].
  rewrite IH, andb_true_r. apply normalized_char.
Qed.

Lemma sdict_in_set {V} (d : SDict.t V) (k : string) (v : V) (x : string * V) :
  In x (SDict.set d k v) -> In x d \/ x = (k, v).
Proof.
  induction d as [|[k0 v0] d IH]; simpl.
  - intros [<-|[]]. now right.
  - destruct (String.eqb k0 k); simpl.
    + intros [<-|Hin]; auto.
    + intros [<-|Hin]; auto. destruct (IH Hin); auto.
Qed.

Lemma parse_section_normalized
    (parsed parsed' : SDict.t string) (current current' section : string) :
  Forall (fun x => normalized_key (fst x) = true) parsed ->
  normalized_key current = true ->
  AdvancedAnalysis.parse_section (parsed, current) section = inr (parsed', current') ->
  Forall (fun x => normalized_key (fst x) = true) parsed'
  /\ normalized_key current' = true.
Proof.
  intros Hparsed Hcurrent. unfold AdvancedAnalysis.parse_section.
  destruct (Str.contains ":" section).
  - destruct (Str.split_colon section) as [title text]. intros [= <- <-].
    split; [|apply normalized_title].
    rewrite Forall_forall in *. intros x Hx.
    destruct (sdict_in_set _ _ _ _ Hx) as [Hin| ->]; auto.
    apply normalized_title.
  - destruct (SDict.item parsed current) as [e|so_far]; simpl; [discriminate|].
    intros [= <- <-]. split; auto.
    rewrite Forall_forall in *. intros x Hx.
    destruct (sdict_in_set _ _ _ _ Hx) as [Hin| ->]; auto.
Qed.

End ParseFacts.

(** X18: a response has to open with a title. When the first paragraph of
    the content holds no colon, and so when the content is empty, there is no
    section to add the paragraph to and the parser raises [KeyError]. *)
Theorem parse_llm_response_needs_title (content : string) :
  Str.contains ":" (hd ""%string (Str.split_blank_lines content)) = false ->
  AdvancedAnalysis.parse_llm_response content = inl KeyError.
Proof.
  unfold AdvancedAnalysis.parse_llm_response, Str.split_blank_lines.
  pose proof (paragraphs_nonempty (list_ascii_of_string content) []) as Hne.
  destruct (Str.paragraphs (list_ascii_of_string content) []) as [|first rest];
    [contradiction|].
  simpl hd. intros Hfirst. rewrite foldM_cons.
  unfold AdvancedAnalysis.parse_section at 1. rewrite Hfirst. reflexivity.
Qed.

Lemma parse_llm_response_needs_title_witness :
  AdvancedAnalysis.parse_llm_response "" = inl KeyError
  /\ AdvancedAnalysis.parse_llm_response "Here is my analysis" = inl KeyError.
Proof.
  split.
  - apply (parse_llm_response_needs_title ""). reflexivity.
  - apply (parse_llm_response_needs_title "Here is my analysis"). reflexivity.
Defined.

(** X19: the titles of a parsed response are normalized. Every key of a
    returned dictionary is free of spaces and of capital letters, so a
    section is found under its title in lower case with underscores. *)
Theorem parse_llm_response_keys_normalized
    (content : string) (parsed_response : SDict.t string) :
  AdvancedAnalysis.parse_llm_response content = inr parsed_response ->
  Forall (fun key => normalized_key key = true) (SDict.keys parsed_response).
Proof.
  unfold AdvancedAnalysis.parse_llm_response.
  destruct (foldM AdvancedAnalysis.parse_section (Str.split_blank_lines content)
              ([], ""%string)) as [e|[parsed current]] eqn:Hrun; simpl;
    [discriminate|].
  intros [= <-].
  assert (Hinv : Forall (fun x => normalized_key (fst x) = true) parsed
                 /\ normalized_key current = true).
  { revert Hrun.
    apply (foldM_returned
             (fun state : SDict.t string * string =>
                Forall (fun x => normalized_key (fst x) = true) (fst state)
                /\ normalized_key (snd state) = true)
             AdvancedAnalysis.parse_section
             (Str.split_blank_lines content) ([], ""%string) (parsed, current)).
    - split; [constructor|reflexivity].
    - intros [p c] section [p' c'] _ [Hp Hc] Hstep. simpl in *.
      exact (parse_section_normalized p p' c c' section Hp Hc Hstep). }
  destruct Hinv as [Hkeys _]. unfold SDict.keys. now rewrite Forall_map.
Qed.

Lemma parse_llm_response_keys_normalized_witness :
  Forall (fun key => normalized_key key = true)
    (SDict.keys [("likelihood_change"%string, "rises"%string)]).
Proof.
  apply (parse_llm_response_keys_normalized " Likelihood Change : rises").
  vm_compute. reflexivity.
Defined.

(** ** Node attributes *)

Section AttributeFacts.

Import Models.

Implicit Types (G : Nx.Graph) (u v n m : Z) (d : Nx.EdgeData).

Local Abbreviation add_nodes :=
  (fold_left (fun G risk => Nx.add_node G (id risk) risk)).
Local Abbreviation add_edges :=
  (fold_left
     (fun G interaction =>
        Nx.add_edge G (risk1_id interaction) (risk2_id interaction)
          {| Nx.weight := interaction_score interaction;
             Nx.type := interaction_type interaction |})).

Lemma attr_set_nbr_kept G u v d n (e : Nx.NodeEntry) :
  Dict.get G n = Some e ->
  exists e', Dict.get (Nx.set_nbr G u v d) n = Some e' /\ Nx.attr e' = Nx.attr e.
Proof.
  intros Hn. unfold Nx.set_nbr.
  destruct (Dict.get G u) as [eu|] eqn:Hu; [|eauto].
  destruct (Z.eq_dec u n) as [->|Hne].
  - rewrite get_set_same. rewrite Hn in Hu. injection Hu as <-. eauto.
  - rewrite get_set_other by exact Hne. eauto.
Qed.

Lemma get_set_nbr_none G u v d n :
  Dict.get G n = None -> Dict.get (Nx.set_nbr G u v d) n = None.
Proof.
  rewrite !get_None_keys. now rewrite keys_set_nbr.
Qed.

Lemma attr_touch_new G m n (e : Nx.NodeEntry) :
  Dict.get G n = None ->
  Dict.get (Nx.touch G m) n = Some e ->
  Nx.attr e = None.
Proof.
  intros Hn. unfold Nx.touch. destruct (Dict.get G m) eqn:Hm; [congruence|].
  destruct (Z.eq_dec m n) as [->|Hne].
  - rewrite get_set_same. now intros [= <-].
  - rewrite get_set_other by exact Hne. congruence.
Qed.

(** An edge changes no attribute of a node that is there, and a node it
    adds has none. *)
Lemma attr_add_edge G u v d n (e' : Nx.NodeEntry) :
  Dict.get (Nx.add_edge G u v d) n = Some e' ->
  match Dict.get G n with
  | Some e => Nx.attr e' = Nx.attr e
  | None => Nx.attr e' = None
  end.
Proof.
  unfold Nx.add_edge. intros Hget.
  destruct (Dict.get (Nx.touch (Nx.touch G u) v) n) as [e2|] eqn:H2.
  - destruct (attr_set_nbr_kept _ u v d n e2 H2) as (e3 & H3 & Ha3).
    destruct (attr_set_nbr_kept _ v u d n e3 H3) as (e4 & H4 & Ha4).
    rewrite H4 in Hget. injection Hget as <-. rewrite Ha4, Ha3.
    destruct (Dict.get G n) as [e|] eqn:Hn.
    + rewrite (get_touch_kept _ v n e (get_touch_kept G u n e Hn)) in H2.
      now injection H2 as <-.
    + destruct (Dict.get (Nx.touch G u) n) as [e1|] eqn:H1.
      * rewrite (get_touch_kept _ v n e1 H1) in H2. injection H2 as <-.
        exact (attr_touch_new G u n e1 Hn H1).
      * exact (attr_touch_new _ v n e2 H1 H2).
  - rewrite (get_set_nbr_none _ v u d n (get_set_nbr_none _ u v d n H2)) in Hget.
    discriminate.
Qed.

Lemma attr_add_edge_kept G u v d n (e : Nx.NodeEntry) :
  Dict.get G n = Some e ->
  exists e', Dict.get (Nx.add_edge G u v d) n = Some e' /\ Nx.attr e' = Nx.attr e.
Proof.
  intros Hn. unfold Nx.add_edge.
  pose proof (get_touch_kept _ v n e (get_touch_kept G u n e Hn)) as H2.
  destruct (attr_set_nbr_kept _ u v d n e H2) as (e3 & H3 & Ha3).
  destruct (attr_set_nbr_kept _ v u d n e3 H3) as (e4 & H4 & Ha4).
  exists e4. split; auto. congruence.
Qed.

Lemma attr_add_edges_kept interactions :
  forall G n (e : Nx.NodeEntry),
    Dict.get G n = Some e ->
    exists e',
      Dict.get (add_edges interactions G) n = Some e' /\ Nx.attr e' = Nx.attr e.
Proof.
  induction interactions as [|i rest IH]; intros G n e Hn; simpl; [eauto|].
  destruct (attr_add_edge_kept G (risk1_id i) (risk2_id i)
              {| Nx.weight := interaction_score i; Nx.type := interaction_type i |}
              n e Hn) as (e1 & H1 & Ha1).
  destruct (IH _ n e1 H1) as (e' & He' & Ha'). exists e'. split; auto. congruence.
Qed.

Lemma attr_add_edges_new interactions :
  forall G n (e' : Nx.NodeEntry),
    (forall e, Dict.get G n = Some e -> Nx.attr e = None) ->
    Dict.get (add_edges interactions G) n = Some e' ->
    Nx.attr e' = None.
Proof.
  induction interactions as [|i rest IH]; intros G n e' HG; simpl; [auto|].
  apply IH. intros e1 H1.
  pose proof (attr_add_edge G _ _ _ n e1 H1) as Hattr.
  destruct (Dict.get G n) as [e|] eqn:Hn; [|exact Hattr].
  rewrite Hattr. now apply HG.
Qed.

Lemma get_add_node G m n (r : Risk) :
  Dict.get (Nx.add_node G m r) n
  = if (m =? n)%Z
    then Some {| Nx.attr := Some r;
                 Nx.nbrs := match Dict.get G m with
                            | Some e => Nx.nbrs e
                            | None => []
                            end |}
    else Dict.get G n.
Proof.
  unfold Nx.add_node. destruct (Z.eqb_spec m n) as [->|Hne].
  - destruct (Dict.get G n); now rewrite get_set_same.
  - destruct (Dict.get G m); now rewrite get_set_other.
Qed.

Lemma get_add_nodes_other risks :
  forall G n, ~ In n (map id risks) -> Dict.get (add_nodes risks G) n = Dict.get G n.
Proof.
  induction risks as [|r risks IH]; intros G n Hnot; simpl; auto.
  rewrite IH by (intros Hin; apply Hnot; now right).
  rewrite get_add_node. destruct (Z.eqb_spec (id r) n) as [Heq|]; auto.
  exfalso. apply Hnot. now left.
Qed.

Lemma attr_add_nodes risks :
  NoDup (map id risks) ->
  forall G r,
    In r risks ->
    exists e, Dict.get (add_nodes risks G) (id r) = Some e /\ Nx.attr e = Some r.
Proof.
  induction risks as [|x xs IH]; intros Hnodup G r Hin.
  - destruct Hin.
  - simpl in Hnodup. inversion Hnodup as [|? ? Hx Hxs]; subst.
    simpl. destruct Hin as [->|Hin].
    + rewrite get_add_nodes_other by exact Hx.
      rewrite get_add_node, Z.eqb_refl. eauto.
    + now apply IH.
Qed.

End AttributeFacts.

(** X20: the attributes of the nodes of a built graph. When the risks carry
    different ids, every risk's node holds that risk's fields, whatever
    interactions follow; and a node that only an interaction brought in, its id
    carried by no risk, holds no attributes at all. *)
Theorem build_risk_network_attributes
    (risks : list Models.Risk) (interactions : list Models.RiskInteraction) :
  NoDup (map Models.id risks) ->
  (forall r,
      In r risks ->
      exists e,
        Dict.get (InteractionAnalysis.build_risk_network risks interactions)
          (Models.id r) = Some e
        /\ Nx.attr e = Some r)
  /\ (forall n e,
        Dict.get (InteractionAnalysis.build_risk_network risks interactions) n
        = Some e ->
        ~ In n (map Models.id risks) ->
        Nx.attr e = None).
Proof.
  intros Hnodup. unfold InteractionAnalysis.build_risk_network. split.
  - intros r Hr.
    destruct (attr_add_nodes risks Hnodup Nx.empty r Hr) as (e0 & H0 & Ha0).
    destruct (attr_add_edges_kept interactions _ _ e0 H0) as (e & He & Ha).
    exists e. split; auto. congruence.
  - intros n e Hget Hnot.
    eapply attr_add_edges_new; [|exact Hget].
    intros e0. rewrite get_add_nodes_other by exact Hnot. discriminate.
Qed.

Lemma build_risk_network_attributes_witness :
  (forall r,
      In r [Fixtures.risk 1 "Risk 1" "Physical" ""] ->
      exists e,
        Dict.get
          (InteractionAnalysis.build_risk_network
             [Fixtures.risk 1 "Risk 1" "Physical" ""]
             [Fixtures.interaction 1 2 0.5 "Moderate"])
          (Models.id r) = Some e
        /\ Nx.attr e = Some r)
  /\ (forall n e,
        Dict.get
          (InteractionAnalysis.build_risk_network
             [Fixtures.risk 1 "Risk 1" "Physical" ""]
             [Fixtures.interaction 1 2 0.5 "Moderate"]) n
        = Some e ->
        ~ In n (map Models.id [Fixtures.risk 1 "Risk 1" "Physical" ""]) ->
        Nx.attr e = None).
Proof.
  apply (build_risk_network_attributes
           [Fixtures.risk 1 "Risk 1" "Physical" ""]
           [Fixtures.interaction 1 2 0.5 "Moderate"]).
  simpl. constructor; [intros []|constructor].
Defined.
